(** * Hierarchy viewer: the record-to-tree builder, search, navigation and
      the fit-to-screen transform, embedded from the TypeScript sources

    - [src/utils/dataProcessing.ts]: [buildEmployeeMap], [searchEmployees]
    - [src/App.tsx]: [handleUpload], [goUp], [resetData]
    - [src/components/OrgChart.tsx]: [fitToScreen]

    JavaScript objects are mutable and shared by reference: the [Employee]
    objects created by the builder are stored in a [Map] and pushed into each
    other's [children] arrays.  The embedding therefore keeps an explicit
    object store ([Heap]) and represents every [Employee] reference by its
    location in that store. *)

From Stdlib Require Import Ascii String NArith QArith Qminmax Lqa.
From stdpp Require Import base option list strings gmap.

Local Open Scope string_scope.
Local Open Scope list_scope.

(** ** JavaScript values used by the sources *)

Module Js.

(** A property read [row.K] yields a string or [undefined] ([None]);
    the only falsy values that can occur are [undefined] and the empty
    string. *)
Definition truthy (v : option string) : bool :=
  match v with
  | Some s => negb (String.eqb s "")
  | None => false
  end.

(** [a || b] *)
Definition or (a b : option string) : option string :=
  if truthy a then a else b.

(** *** Strings

    A string is a sequence of code units; the embedding covers the code
    units U+0000..U+00FF, on which [toLowerCase] acts unit by unit. *)

Definition code (c : ascii) : N := N_of_ascii c.

(** Upper-case letters below U+0100: A-Z, and U+00C0..U+00DE except the
    multiplication sign U+00D7. *)
Definition is_upper (c : ascii) : bool :=
  let n := code c in
  ((65 <=? n) && (n <=? 90) || (192 <=? n) && (n <=? 222) && negb (n =? 215))%N.

Definition lower_char (c : ascii) : ascii :=
  if is_upper c then ascii_of_N (code c + 32) else c.

Fixpoint toLowerCase (s : string) : string :=
  match s with
  | EmptyString => EmptyString
  | String c s' => String (lower_char c) (toLowerCase s')
  end.

(** White space and line terminators below U+0100: TAB, LF, VT, FF, CR,
    SPACE and NO-BREAK SPACE. *)
Definition is_space (c : ascii) : bool :=
  let n := code c in
  ((9 <=? n) && (n <=? 13) || (n =? 32) || (n =? 160))%N.

Fixpoint trimStart (s : string) : string :=
  match s with
  | EmptyString => EmptyString
  | String c s' => if is_space c then trimStart s' else s
  end.

Fixpoint trimEnd (s : string) : string :=
  match s with
  | EmptyString => EmptyString
  | String c s' =>
      match trimEnd s' with
      | EmptyString => if is_space c then EmptyString else String c EmptyString
      | t => String c t
      end
  end.

Definition trim (s : string) : string := trimEnd (trimStart s).

Fixpoint startsWith (s q : string) {struct q} : bool :=
  match q, s with
  | EmptyString, _ => true
  | String _ _, EmptyString => false
  | String b q', String a s' => Ascii.eqb a b && startsWith s' q'
  end.

(** [s.includes(q)] *)
Fixpoint includes (s q : string) : bool :=
  startsWith s q ||
  match s with
  | EmptyString => false
  | String _ s' => includes s' q
  end.

(** *** [Map<string, V>]

    A [Map] iterates in insertion order of its keys; [set] on a key that
    is already present replaces the value and leaves the key where it
    is. *)
Definition Map (V : Type) : Type := list (string * V).

Fixpoint map_get {V} (k : string) (m : Map V) : option V :=
  match m with
  | [] => None
  | (k', v) :: m' => if String.eqb k' k then Some v else map_get k m'
  end.

Definition map_has {V} (k : string) (m : Map V) : bool :=
  match map_get k m with Some _ => true | None => false end.

Fixpoint map_set {V} (k : string) (v : V) (m : Map V) : Map V :=
  match m with
  | [] => [(k, v)]
  | (k', v') :: m' =>
      if String.eqb k' k then (k, v) :: m' else (k', v') :: map_set k v m'
  end.

Definition map_keys {V} (m : Map V) : list string := m.*1.
Definition map_values {V} (m : Map V) : list V := m.*2.

End Js.

(** ** [src/types.ts] *)

(** [RawCsvRow]: an object from column name to string. *)
Abbreviation RawCsvRow := (gmap string string).

(** An [Employee] reference. *)
Abbreviation loc := nat (only parsing).

Record Employee := mkEmployee {
  id : string;
  managerId : option string;   (* [string | null] *)
  name : string;
  children : list loc          (* [Employee[]], by reference *)
}.

Abbreviation Heap := (list Employee).

Inductive SearchField := FieldId | FieldName | FieldManagerId.

(** ** [src/utils/dataProcessing.ts] *)

Module DataProcessing.
Import Js.

(** The three field reads at the top of the [rows.forEach] callback. *)
Definition row_id (row : RawCsvRow) : option string :=
  or (row !! "EMPLOYEENUMBER") (row !! "EMPLOYEE ID").

Definition row_managerId (row : RawCsvRow) : option string :=
  or (or (row !! "SUPERVISORPARTYID") (row !! "MANAGER ID")) (row !! "SUPERVISOR ID").

Definition row_name (row : RawCsvRow) : option string :=
  or (or (row !! "FIRSTNAME") (row !! "NAME")) (row !! "FULL NAME").

(** The object literal passed to [employeeMap.set]. *)
Definition new_employee (i : string) (row : RawCsvRow) : Employee :=
  {| id := i;
     managerId := if truthy (row_managerId row) then row_managerId row else None;
     name := match or (row_name row) (Some "Unknown") with
             | Some n => n
             | None => "Unknown"
             end;
     children := [] |}.

(** First pass: one iteration of [rows.forEach]. *)
Definition node_step (st : Heap * Map loc) (row : RawCsvRow) : Heap * Map loc :=
  match row_id row with
  | Some i =>
      if truthy (Some i)
      then (st.1 ++ [new_employee i row], map_set i (length st.1) st.2)
      else st
  | None => st
  end.

Definition node_pass (rows : list RawCsvRow) : Heap * Map loc :=
  fold_left node_step rows ([], []).

(** [console.warn] calls made by the second pass. *)
Inductive LogEntry :=
  | ManagerNotFound (manager employee : string).

Definition push_child (c : loc) (e : Employee) : Employee :=
  {| id := id e; managerId := managerId e; name := name e;
     children := children e ++ [c] |}.

(** Second pass: one iteration of [employeeMap.forEach]. *)
Definition link_step (m : Map loc) (st : Heap * list LogEntry) (entry : string * loc)
  : Heap * list LogEntry :=
  match st.1 !! entry.2 with
  | Some employee =>
      if truthy (managerId employee) then
        match managerId employee with
        | Some mid =>
            match map_get mid m with
            | Some manager => (alter (push_child entry.2) manager st.1, st.2)
            | None => (st.1, st.2 ++ [ManagerNotFound mid (id employee)])
            end
        | None => st
        end
      else st
  | None => st
  end.

Definition link_pass (h : Heap) (m : Map loc) : Heap * list LogEntry :=
  fold_left (link_step m) m (h, []).

(** The result of a build: the returned [Map], the objects it refers to,
    and the warnings written to the console. *)
Record Built := mkBuilt {
  store : Heap;
  employeeMap : Map loc;
  warnings : list LogEntry
}.

Definition buildEmployeeMap (rows : list RawCsvRow) : Built :=
  let '(h, m) := node_pass rows in
  let '(h', w) := link_pass h m in
  {| store := h'; employeeMap := m; warnings := w |}.

(** [map.get(k)] followed by a dereference. *)
Definition node_at (b : Built) (k : string) : option Employee :=
  l ← map_get k (employeeMap b); store b !! l.

(** The test made on one employee by the [map.forEach] callback of
    [searchEmployees]. *)
Definition field_matches (queryLower : string) (field : SearchField) (employee : Employee) : bool :=
  match field with
  | FieldId => includes (toLowerCase (id employee)) queryLower
  | FieldName => includes (toLowerCase (name employee)) queryLower
  | FieldManagerId =>
      truthy (managerId employee) &&
      match managerId employee with
      | Some mid => includes (toLowerCase mid) queryLower
      | None => false
      end
  end.

Definition searchEmployees (h : Heap) (m : Map loc) (query : string) (field : SearchField)
  : list loc :=
  let queryLower := trim (toLowerCase query) in
  if truthy (Some queryLower) then
    fold_left
      (fun results entry =>
         match h !! entry.2 with
         | Some employee =>
             if field_matches queryLower field employee
             then results ++ [entry.2] else results
         | None => results
         end)
      m []
  else [].

End DataProcessing.


(** ** [src/App.tsx] *)

Module App.
Import Js DataProcessing.

(** The component state read and written by [handleUpload], [goUp],
    [selectEmployee] and [resetData], together with the objects its
    references point to.  The search box state is left out. *)
Record State := mkState {
  heap : Heap;
  employeeMap : option (Map loc);   (* [Map<string, Employee> | null] *)
  viewRoot : option loc;            (* [Employee | null] *)
  isLoading : bool;
  uploadError : option string
}.

Definition initial : State :=
  {| heap := []; employeeMap := None; viewRoot := None;
     isLoading := false; uploadError := None |}.

Definition setViewRoot (root : option loc) (st : State) : State :=
  {| heap := heap st; employeeMap := employeeMap st; viewRoot := root;
     isLoading := isLoading st; uploadError := uploadError st |}.

(** [!emp.managerId || !map.has(emp.managerId)] *)
Definition is_root_candidate (m : Map loc) (emp : Employee) : bool :=
  negb (truthy (managerId emp)) ||
  negb (match managerId emp with
        | Some mid => map_has mid m
        | None => false
        end).

(** The loop [for (const emp of map.values())] of [handleUpload]: the
    first root candidate, if there is one. *)
Fixpoint first_root_candidate (h : Heap) (m : Map loc) (values : list loc) : option loc :=
  match values with
  | [] => None
  | l :: values' =>
      match h !! l with
      | Some emp =>
          if is_root_candidate m emp then Some l
          else first_root_candidate h m values'
      | None => first_root_candidate h m values'
      end
  end.

(** [defaultRoot]: the first value of the map unless the loop finds a
    root candidate; [undefined] for an empty map. *)
Definition defaultRoot (b : Built) : option loc :=
  match first_root_candidate (store b) (DataProcessing.employeeMap b)
          (map_values (DataProcessing.employeeMap b)) with
  | Some l => Some l
  | None => head (map_values (DataProcessing.employeeMap b))
  end.

(** [handleUpload], from the parsed rows on.  An empty [rawData] throws;
    the [catch] block sets the upload error and nothing else. *)
Definition handleUpload (st : State) (rawData : list RawCsvRow) : State :=
  if (length rawData =? 0)%nat then
    {| heap := heap st; employeeMap := employeeMap st; viewRoot := viewRoot st;
       isLoading := false;
       uploadError := Some "Failed to parse CSV. Please check the format." |}
  else
    let b := buildEmployeeMap rawData in
    {| heap := store b; employeeMap := Some (DataProcessing.employeeMap b);
       viewRoot := defaultRoot b;
       isLoading := false; uploadError := None |}.

Definition selectEmployee (st : State) (emp : loc) : State :=
  setViewRoot (Some emp) st.

Definition goUp (st : State) : State :=
  match viewRoot st, employeeMap st with
  | Some root, Some m =>
      match heap st !! root with
      | Some employee =>
          if truthy (managerId employee) then
            match managerId employee with
            | Some mid =>
                match map_get mid m with
                | Some manager => setViewRoot (Some manager) st
                | None => st
                end
            | None => st
            end
          else st
      | None => st
      end
  | _, _ => st
  end.

Definition resetData (st : State) : State :=
  {| heap := heap st; employeeMap := None; viewRoot := None;
     isLoading := isLoading st; uploadError := uploadError st |}.

(** The states the component can be in. *)
Inductive reachable : State → Prop :=
  | reach_initial : reachable initial
  | reach_upload st rawData : reachable st → reachable (handleUpload st rawData)
  | reach_select st k emp m :
      reachable st → employeeMap st = Some m → map_get k m = Some emp →
      reachable (selectEmployee st emp)
  | reach_up st : reachable st → reachable (goUp st)
  | reach_reset st : reachable st → reachable (resetData st).

End App.

(** ** The chart component: [fitToScreen]

    Numbers are taken as exact rationals. *)

Module OrgChart.
Local Open Scope Q_scope.

Definition CARD_WIDTH : Q := 260.
Definition CARD_HEIGHT : Q := 100.

(** The position the layout gave to a node. *)
Record Point := mkPoint { x : Q; y : Q }.

(** An accumulator of the bounding-box loop: it starts at [Infinity] or
    [-Infinity]. *)
Inductive Bound := NegInfinity | Fin (q : Q) | PosInfinity.

(** [v < b] *)
Definition below (v : Q) (b : Bound) : bool :=
  match b with
  | PosInfinity => true
  | Fin q => negb (Qle_bool q v)
  | NegInfinity => false
  end.

(** [v > b] *)
Definition above (v : Q) (b : Bound) : bool :=
  match b with
  | NegInfinity => true
  | Fin q => negb (Qle_bool v q)
  | PosInfinity => false
  end.

Record Bounds := mkBounds { minX : Bound; maxX : Bound; minY : Bound; maxY : Bound }.

Definition bounds_step (acc : Bounds) (d : Point) : Bounds :=
  {| minX := if below (x d) (minX acc) then Fin (x d) else minX acc;
     maxX := if above (x d) (maxX acc) then Fin (x d) else maxX acc;
     minY := if below (y d) (minY acc) then Fin (y d) else minY acc;
     maxY := if above (y d) (maxY acc) then Fin (y d) else maxY acc |}.

Definition bounds (nodes : list Point) : Bounds :=
  fold_left bounds_step nodes
    {| minX := PosInfinity; maxX := NegInfinity; minY := PosInfinity; maxY := NegInfinity |}.

(** The bounding box once the card dimensions are added. *)
Record Box := mkBox { left : Q; right : Q; top : Q; bottom : Q }.

Definition boundingBox (nodes : list Point) : option Box :=
  match bounds nodes with
  | {| minX := Fin minX; maxX := Fin maxX; minY := Fin minY; maxY := Fin maxY |} =>
      Some {| left := minX - CARD_WIDTH / 2;
              right := maxX + CARD_WIDTH / 2;
              top := minY;
              bottom := maxY + CARD_HEIGHT |}
  | _ => None
  end.

Definition width (b : Box) : Q := right b - left b.
Definition height (b : Box) : Q := bottom b - top b.
Definition centerX (b : Box) : Q := (left b + right b) / 2.
Definition centerY (b : Box) : Q := (top b + bottom b) / 2.

Definition padding : Q := 100.

(** [a / b], defined when the divisor is not zero. *)
Definition div (a b : Q) : option Q :=
  if Qeq_bool b 0 then None else Some (a / b).

(** [d3.zoomIdentity.translate(tx, ty).scale(k)] *)
Record Transform := mkTransform { tx : Q; ty : Q; k : Q }.

(** The transform computed by [fitToScreen] for the laid-out [nodes] and
    the client size of the drawing; [None] when the box has an infinite
    bound (no node) or a division by zero occurs. *)
Definition fitToScreen (nodes : list Point) (svgWidth svgHeight : Q) : option Transform :=
  match boundingBox nodes with
  | Some box =>
      match div (svgWidth - padding) (width box), div (svgHeight - padding) (height box) with
      | Some sx, Some sy =>
          let scale := Qmin sx sy in
          let clampedScale := Qmin (Qmax scale 0.2) 1 in
          Some {| tx := svgWidth / 2 - centerX box * clampedScale;
                  ty := svgHeight / 2 - centerY box * clampedScale
                        - (height box * clampedScale / 2) + 50;
                  k := clampedScale |}
      | _, _ => None
      end
  | None => None
  end.

(** Where a transform puts a point of the chart. *)
Definition applyX (t : Transform) (px : Q) : Q := px * k t + tx t.
Definition applyY (t : Transform) (py : Q) : Q := py * k t + ty t.

End OrgChart.

(** ** [src/App.tsx]: the search box and the "Go Up" button *)

Module AppUi.
Import Js DataProcessing.

(** The [onGoUp] property handed to the chart,
    [viewRoot.managerId && employeeMap.has(viewRoot.managerId) ? goUp : undefined],
    in the branch where the index and the root are set; the chart shows
    the button when [rootNode.managerId && onGoUp]. *)
Definition goUp_offered (st : App.State) : bool :=
  match App.viewRoot st, App.employeeMap st with
  | Some root, Some m =>
      match App.heap st !! root with
      | Some employee =>
          truthy (managerId employee) &&
          match managerId employee with
          | Some mid => map_has mid m
          | None => false
          end
      | None => false
      end
  | _, _ => false
  end.

(** The component state with the search box. *)
Record Ui := mkUi {
  app : App.State;
  searchQuery : string;
  searchType : SearchField;
  searchResults : list loc
}.

Definition setSearchResults (results : list loc) (ui : Ui) : Ui :=
  {| app := app ui; searchQuery := searchQuery ui; searchType := searchType ui;
     searchResults := results |}.

(** [selectEmployee]: the new root, and the search box emptied. *)
Definition selectEmployee (ui : Ui) (emp : loc) : Ui :=
  {| app := App.selectEmployee (app ui) emp; searchQuery := "";
     searchType := searchType ui; searchResults := [] |}.

Definition handleSearch (ui : Ui) : Ui :=
  match App.employeeMap (app ui) with
  | Some m =>
      if truthy (Some (searchQuery ui)) then
        let results :=
          searchEmployees (App.heap (app ui)) m (searchQuery ui) (searchType ui) in
        match results with
        | [emp] => selectEmployee (setSearchResults results ui) emp
        | _ => setSearchResults results ui
        end
      else ui
  | None => ui
  end.

End AppUi.

(** ** [searchEmployees] over the string methods of the language

    [toLowerCase], [trim] and [includes] are methods of JavaScript
    strings.  Here they are parameters, so that what is proved holds for
    strings of any code units (with a string represented by any encoding
    that maps equal strings to equal values and the empty string to the
    empty one).  [DataProcessing.searchEmployees] is the instance at the
    functions of [Js], which are these methods on code units below
    U+0100. *)

Module SearchAny.
Import Js.

Section methods.
Variable toLowerCase : string → string.
Variable trim : string → string.
Variable includes : string → string → bool.

(** The test made on one employee by the [map.forEach] callback. *)
Definition field_matches_with
    (queryLower : string) (field : SearchField) (employee : Employee) : bool :=
  match field with
  | FieldId => includes (toLowerCase (id employee)) queryLower
  | FieldName => includes (toLowerCase (name employee)) queryLower
  | FieldManagerId =>
      truthy (managerId employee) &&
      match managerId employee with
      | Some mid => includes (toLowerCase mid) queryLower
      | None => false
      end
  end.

Definition searchEmployees_with
    (h : Heap) (m : Map loc) (query : string) (field : SearchField) : list loc :=
  let queryLower := trim (toLowerCase query) in
  if truthy (Some queryLower) then
    fold_left
      (fun results entry =>
         match h !! entry.2 with
         | Some employee =>
             if field_matches_with queryLower field employee
             then results ++ [entry.2] else results
         | None => results
         end)
      m []
  else [].

(** The test of the search on the object at [l]. *)
Definition hit_with (h : Heap) (queryLower : string) (field : SearchField) (l : loc) : bool :=
  match h !! l with
  | Some e => field_matches_with queryLower field e
  | None => false
  end.

End methods.
End SearchAny.

(** ** [src/App.tsx]: what [goUp] returns *)

Module AppReturn.
Import Js.

(** The value of a function of type [() => void]. *)
Inductive Void := undefined.

(** The value [goUp] returns: [return;] on the guard, and the end of the
    body after the lookup. *)
Definition goUp_returns (st : App.State) : Void :=
  match App.viewRoot st, App.employeeMap st with
  | Some root, Some m =>
      match App.heap st !! root with
      | Some employee =>
          if truthy (managerId employee) then
            match managerId employee with
            | Some mid =>
                match map_get mid m with
                | Some manager => undefined
                | None => undefined
                end
            | None => undefined
            end
          else undefined
      | None => undefined
      end
  | _, _ => undefined
  end.

End AppReturn.

(** ** Vocabulary used to state the properties *)

Module Notions.
Import Js DataProcessing.

(** A string made of white space only (the empty string included). *)
Fixpoint whitespace_only (s : string) : bool :=
  match s with
  | EmptyString => true
  | String c s' => is_space c && whitespace_only s'
  end.

(** [v] contains [q] as a substring, up to letter case. *)
Definition ci_contains (v q : string) : Prop :=
  ∃ pre mid post, v = pre +:+ mid +:+ post ∧ toLowerCase mid = toLowerCase q.

(** The distinct elements of a list, each at the place of its first
    occurrence: the key order of a [Map] filled by successive [set]s. *)
Fixpoint first_occurrences (l : list string) : list string :=
  match l with
  | [] => []
  | x :: l' => x :: filter (λ y, y ≠ x) (first_occurrences l')
  end.

(** The identifier a record is stored under, if it yields one: the value
    of [id] when the test [if (id)] succeeds. *)
Definition usable_id (row : RawCsvRow) : option string :=
  if truthy (row_id row) then row_id row else None.

Definition input_ids (rows : list RawCsvRow) : list string := omap usable_id rows.

(** The last record of the input stored under [k]. *)
Fixpoint last_record (rows : list RawCsvRow) (k : string) : option RawCsvRow :=
  match rows with
  | [] => None
  | r :: rows' =>
      match last_record rows' k with
      | Some r' => Some r'
      | None => if decide (usable_id r = Some k) then Some r else None
      end
  end.

(** What holds between the input and the state of the first pass. *)
Record node_inv (rows : list RawCsvRow) (h : Heap) (m : Map loc) : Prop := {
  ni_heap : Forall (λ e, children e = [] ∧ managerId e ≠ Some "") h;
  ni_keys : map_keys m = first_occurrences (input_ids rows);
  ni_some : ∀ k l, map_get k m = Some l →
            ∃ r, last_record rows k = Some r ∧ h !! l = Some (new_employee k r);
  ni_vals : NoDup (map_values m);
  ni_bound : ∀ l, l ∈ map_values m → l < length h
}.

(** [cs] appended to the [children] array of [e]. *)
Definition add_children (cs : list loc) (e : Employee) : Employee :=
  {| id := id e; managerId := managerId e; name := name e;
     children := children e ++ cs |}.

(** The entry's employee names a manager that resolves to [manager]. *)
Definition reports_to (h : Heap) (m : Map loc) (manager : loc) (entry : string * loc) : bool :=
  match h !! entry.2 with
  | Some e =>
      match managerId e with
      | Some mid => truthy (Some mid) && bool_decide (map_get mid m = Some manager)
      | None => false
      end
  | None => false
  end.

Definition linked (h : Heap) (m : Map loc) (es : list (string * loc)) (manager : loc) : list loc :=
  (filter (λ entry, reports_to h m manager entry = true) es).*2.

(** The warning written for an entry, if any. *)
Definition warning_of (h : Heap) (m : Map loc) (entry : string * loc) : option LogEntry :=
  match h !! entry.2 with
  | Some e =>
      match managerId e with
      | Some mid =>
          if truthy (Some mid) then
            match map_get mid m with
            | Some _ => None
            | None => Some (ManagerNotFound mid (id e))
            end
          else None
      | None => None
      end
  | None => None
  end.

(** The ids of the objects in a [children] array. *)
Definition child_ids (b : Built) (e : Employee) : list string :=
  omap (λ c, id <$> store b !! c) (children e).

(** The manager reference of the node stored under [k]. *)
Definition manager_key (b : Built) (k : string) : option string :=
  e ← node_at b k; managerId e.

(** The distinct elements of a list, each at the place of its last
    occurrence. *)
Fixpoint last_occurrences (l : list string) : list string :=
  match l with
  | [] => []
  | x :: l' => if decide (x ∈ l') then last_occurrences l' else x :: last_occurrences l'
  end.

(** A property value with the empty string turned into [undefined]. *)
Definition absent_if_empty (v : option string) : option string :=
  if truthy v then v else None.

(** A record without its empty-string fields. *)
Definition strip_empty (row : RawCsvRow) : RawCsvRow :=
  filter (λ kv, kv.2 ≠ "") row.

(** The string [searchEmployees] looks into for a field; a node without
    manager reference has none for [managerId]. *)
Definition field_value (field : SearchField) (e : Employee) : option string :=
  match field with
  | FieldId => Some (id e)
  | FieldName => Some (name e)
  | FieldManagerId => absent_if_empty (managerId e)
  end.

(** The object at [l] has the searched field, and its value contains [q]
    up to letter case. *)
Definition matches (h : Heap) (field : SearchField) (q : string) (l : loc) : Prop :=
  ∃ e v, h !! l = Some e ∧ field_value field e = Some v ∧ ci_contains v q.

(** The test of [searchEmployees] on the object at [l]. *)
Definition hit (h : Heap) (queryLower : string) (field : SearchField) (l : loc) : bool :=
  match h !! l with
  | Some e => field_matches queryLower field e
  | None => false
  end.

(** The accumulators of the bounding-box loop are finite and ordered. *)
Definition finite_bounds (acc : OrgChart.Bounds) : Prop :=
  ∃ a b c d : Q,
    acc = {| OrgChart.minX := OrgChart.Fin a; OrgChart.maxX := OrgChart.Fin b;
             OrgChart.minY := OrgChart.Fin c; OrgChart.maxY := OrgChart.Fin d |} ∧
    (a <= b)%Q ∧ (c <= d)%Q.

End Notions.

(** ** Sample inputs *)

Module Examples.
Import Js DataProcessing.

Definition mkrow (fields : list (string * string)) : RawCsvRow := list_to_map fields.

(** The three records of the end-to-end example: a root, a child and an
    orphan. *)
Definition root_row : RawCsvRow := mkrow [("EMPLOYEENUMBER", "1"); ("FIRSTNAME", "Root")].
Definition child_row : RawCsvRow :=
  mkrow [("EMPLOYEENUMBER", "2"); ("SUPERVISORPARTYID", "1"); ("FIRSTNAME", "Child")].
Definition orphan_row : RawCsvRow :=
  mkrow [("EMPLOYEENUMBER", "3"); ("SUPERVISORPARTYID", "99"); ("FIRSTNAME", "Orphan")].
Definition sample_rows : list RawCsvRow := [root_row; child_row; orphan_row].

(** Two orphans. *)
Definition orphan2_row : RawCsvRow :=
  mkrow [("EMPLOYEENUMBER", "4"); ("SUPERVISORPARTYID", "98"); ("FIRSTNAME", "Other")].


(** A manager and two reports, the first report given twice. *)
Definition boss_row : RawCsvRow := mkrow [("EMPLOYEENUMBER", "m"); ("FIRSTNAME", "Boss")].
Definition a_first : RawCsvRow :=
  mkrow [("EMPLOYEENUMBER", "a"); ("SUPERVISORPARTYID", "m"); ("FIRSTNAME", "X")].
Definition b_row : RawCsvRow :=
  mkrow [("EMPLOYEENUMBER", "b"); ("SUPERVISORPARTYID", "m"); ("FIRSTNAME", "B")].
Definition a_second : RawCsvRow :=
  mkrow [("EMPLOYEENUMBER", "a"); ("SUPERVISORPARTYID", "m"); ("FIRSTNAME", "Y")].
Definition duplicate_rows : list RawCsvRow := [boss_row; a_first; b_row; a_second].

(** A record with no identifier column, and one whose fields are all
    empty strings. *)
Definition no_id_row : RawCsvRow := mkrow [("FIRSTNAME", "Nobody")].
Definition empty_fields_row : RawCsvRow :=
  mkrow [("EMPLOYEENUMBER", "5"); ("SUPERVISORPARTYID", ""); ("FIRSTNAME", "")].

(** The state after uploading the three sample records and selecting the
    child. *)
Definition child_selected : App.State :=
  App.selectEmployee (App.handleUpload App.initial sample_rows) 1.

(** A chart of one node, and one of a node above another. *)
Definition one_node : list OrgChart.Point :=
  [{| OrgChart.x := 0; OrgChart.y := 0 |}].
Definition two_levels : list OrgChart.Point :=
  [{| OrgChart.x := 0; OrgChart.y := 0 |}; {| OrgChart.x := 0; OrgChart.y := 240 |}].

End Examples.

(** ** Further vocabulary *)

Module Notions2.
Import Js DataProcessing.

(** The employee id a warning names. *)
Definition warned_id (w : LogEntry) : string :=
  match w with ManagerNotFound _ employee => employee end.

(** The object at [l] passes the root-candidate test of the upload
    handler. *)
Definition candidate_at (b : Built) (l : loc) : Prop :=
  ∃ e, store b !! l = Some e ∧ App.is_root_candidate (employeeMap b) e = true.

(** The reference [l] occurs in some [children] array of the store. *)
Definition is_child (b : Built) (l : loc) : Prop :=
  ∃ l' e', store b !! l' = Some e' ∧ l ∈ children e'.

(** The index and the objects of a state come from one build. *)
Definition from_build (st : App.State) : Prop :=
  ∀ m, App.employeeMap st = Some m →
       ∃ rows, App.heap st = store (buildEmployeeMap rows) ∧
               m = employeeMap (buildEmployeeMap rows).

(** A string does not start with white space. *)
Definition no_leading_space (s : string) : Prop :=
  match s with
  | EmptyString => True
  | String c _ => is_space c = false
  end.

(** The accumulators of the bounding-box loop bound the positions seen so
    far, and each of them is the coordinate of one of these. *)
Definition bounding (seen : list OrgChart.Point) (acc : OrgChart.Bounds) : Prop :=
  ∃ a b c d : Q,
    acc = {| OrgChart.minX := OrgChart.Fin a; OrgChart.maxX := OrgChart.Fin b;
             OrgChart.minY := OrgChart.Fin c; OrgChart.maxY := OrgChart.Fin d |} ∧
    (∀ p, p ∈ seen →
          (a <= OrgChart.x p)%Q ∧ (OrgChart.x p <= b)%Q ∧
          (c <= OrgChart.y p)%Q ∧ (OrgChart.y p <= d)%Q) ∧
    (∃ p, p ∈ seen ∧ OrgChart.x p = a) ∧ (∃ p, p ∈ seen ∧ OrgChart.x p = b) ∧
    (∃ p, p ∈ seen ∧ OrgChart.y p = c) ∧ (∃ p, p ∈ seen ∧ OrgChart.y p = d).

End Notions2.

(** ** Further sample values *)

Module Examples2.
Import Js DataProcessing Examples.

(** The objects built for the orphan of the sample records and for the
    first of the two records with id ["a"]. *)
Definition orphan_node : Employee :=
  {| id := "3"; managerId := Some "99"; name := "Orphan"; children := [] |}.
Definition first_a_node : Employee :=
  {| id := "a"; managerId := Some "m"; name := "X"; children := [] |}.


(** The objects built for the root and the child of the sample records. *)
Definition root_node : Employee :=
  {| id := "1"; managerId := None; name := "Root"; children := [1] |}.
Definition child_node : Employee :=
  {| id := "2"; managerId := Some "1"; name := "Child"; children := [] |}.

End Examples2.

(** ** Sample states *)

Module Examples3.
Import Js DataProcessing Examples.

(** The state right after the upload of the sample records, and the same
    with ["child"] typed into the search box. *)
Definition uploaded : App.State := App.handleUpload App.initial sample_rows.

Definition searching_child : AppUi.Ui :=
  {| AppUi.app := uploaded; AppUi.searchQuery := "child";
     AppUi.searchType := FieldName; AppUi.searchResults := [] |}.

End Examples3.

(** ** A sample box *)

Module Examples4.

(** The box of the chart of two levels. *)
Definition two_levels_box : OrgChart.Box :=
  {| OrgChart.left := 0 - OrgChart.CARD_WIDTH / 2;
     OrgChart.right := 0 + OrgChart.CARD_WIDTH / 2;
     OrgChart.top := 0;
     OrgChart.bottom := 240 + OrgChart.CARD_HEIGHT |}.

End Examples4.

(** ** Records and their places in the input *)

Module Notions3.
Import Js DataProcessing Notions.

(** The place in the input of the last record stored under [k]. *)
Fixpoint last_index (rows : list RawCsvRow) (k : string) : option nat :=
  match rows with
  | [] => None
  | r :: rows' =>
      match last_index rows' k with
      | Some i => Some (S i)
      | None => if decide (usable_id r = Some k) then Some 0 else None
      end
  end.

End Notions3.

(** ** More sample inputs *)

Module Examples5.
Import Js DataProcessing Examples.

(** Two records whose managers are not in the input. *)
Definition two_orphans : list RawCsvRow := [orphan_row; orphan2_row].

(** Two managers; [a] reports to the first, [c] to the second, and a
    later record moves [a] to the second. *)
Definition m1_row : RawCsvRow := mkrow [("EMPLOYEENUMBER", "m1"); ("FIRSTNAME", "One")].
Definition m2_row : RawCsvRow := mkrow [("EMPLOYEENUMBER", "m2"); ("FIRSTNAME", "Two")].
Definition a_under_m1 : RawCsvRow :=
  mkrow [("EMPLOYEENUMBER", "a"); ("SUPERVISORPARTYID", "m1"); ("FIRSTNAME", "A")].
Definition c_under_m2 : RawCsvRow :=
  mkrow [("EMPLOYEENUMBER", "c"); ("SUPERVISORPARTYID", "m2"); ("FIRSTNAME", "C")].
Definition a_under_m2 : RawCsvRow :=
  mkrow [("EMPLOYEENUMBER", "a"); ("SUPERVISORPARTYID", "m2"); ("FIRSTNAME", "A")].
Definition moved_rows : list RawCsvRow :=
  [m1_row; m2_row; a_under_m1; c_under_m2; a_under_m2].

(** A chart of three nodes, one below the other. *)
Definition chain_of_three : list OrgChart.Point :=
  [{| OrgChart.x := 0; OrgChart.y := 0 |};
   {| OrgChart.x := 0; OrgChart.y := 240 |};
   {| OrgChart.x := 0; OrgChart.y := 480 |}].

End Examples5.
(** ** Facts about the JavaScript primitives *)

Module JsFacts.
Import Js Notions.

Lemma truthy_Some s : truthy (Some s) = true ↔ s ≠ "".
Proof.
  unfold truthy. destruct (String.eqb_spec s ""); simpl; split; intros; congruence.
Qed.

Lemma truthy_inv v : truthy v = true → ∃ s, v = Some s ∧ s ≠ "".
Proof.
  destruct v as [s|]; [|discriminate]. intros H. exists s. split; [done|by apply truthy_Some].
Qed.

Lemma truthy_false v : truthy v = false ↔ v = None ∨ v = Some "".
Proof.
  destruct v as [s|]; simpl.
  - destruct (String.eqb_spec s "") as [->|Hne]; simpl.
    + split; auto.
    + split; [discriminate|]. intros [[=]|[= ->]]. done.
  - split; auto.
Qed.

(** *** Strings *)

Lemma append_nil_l (t : string) : "" +:+ t = t.
Proof. reflexivity. Qed.

Lemma append_cons (a : ascii) (s t : string) : String a s +:+ t = String a (s +:+ t).
Proof. reflexivity. Qed.

Ltac unfold_append :=
  repeat (rewrite append_nil_l in * || rewrite append_cons in * ).

Lemma startsWith_spec s q : startsWith s q = true ↔ ∃ post, s = q +:+ post.
Proof.
  revert s. induction q as [|b q IH]; intros s; simpl.
  - split; [intros _; by exists s|done].
  - destruct s as [|a s]; simpl.
    + split; [discriminate|]. intros [post [=]].
    + rewrite andb_true_iff, IH. split.
      * intros [Hab [post ->]]. apply Ascii.eqb_eq in Hab as ->. by exists post.
      * intros [post H]. unfold_append. injection H as -> ->.
        split; [apply Ascii.eqb_refl|by exists post].
Qed.

Lemma includes_spec s q : includes s q = true ↔ ∃ pre post, s = pre +:+ q +:+ post.
Proof.
  induction s as [|a s IH]; simpl.
  - rewrite orb_false_r, startsWith_spec. split.
    + intros [post ->]. by exists "", post.
    + intros [pre [post H]]. destruct pre; [by exists post|discriminate].
  - rewrite orb_true_iff, startsWith_spec, IH. split.
    + intros [[post ->]|[pre [post ->]]].
      * by exists "", post.
      * by exists (String a pre), post.
    + intros [pre [post H]]. destruct pre as [|c pre]; unfold_append.
      * left. by exists post.
      * injection H as -> ->. right. by exists pre, post.
Qed.

Lemma toLowerCase_app s t : toLowerCase (s +:+ t) = toLowerCase s +:+ toLowerCase t.
Proof.
  induction s as [|a s IH]; unfold_append; simpl; [done|].
  unfold_append. by rewrite IH.
Qed.

Lemma toLowerCase_app_inv s a b :
  toLowerCase s = a +:+ b →
  ∃ s1 s2, s = s1 +:+ s2 ∧ toLowerCase s1 = a ∧ toLowerCase s2 = b.
Proof.
  revert s. induction a as [|c a IH]; intros s H; unfold_append.
  - by exists "", s.
  - destruct s as [|d s]; [discriminate|]. simpl in H. injection H as Hc Hs.
    destruct (IH _ Hs) as (s1 & s2 & -> & <- & <-).
    exists (String d s1), s2. simpl. by rewrite Hc.
Qed.

Lemma lower_char_idemp c : lower_char (lower_char c) = lower_char c.
Proof. destruct c as [[] [] [] [] [] [] [] []]; reflexivity. Qed.

Lemma is_space_lower_char c : is_space (lower_char c) = is_space c.
Proof. destruct c as [[] [] [] [] [] [] [] []]; reflexivity. Qed.

Lemma toLowerCase_idemp s : toLowerCase (toLowerCase s) = toLowerCase s.
Proof. induction s; simpl; [done|]. by rewrite lower_char_idemp, IHs. Qed.

Lemma trimStart_toLowerCase s : trimStart (toLowerCase s) = toLowerCase (trimStart s).
Proof.
  induction s as [|c s IH]; simpl; [done|].
  rewrite is_space_lower_char. by destruct (is_space c).
Qed.

Lemma trimEnd_toLowerCase s : trimEnd (toLowerCase s) = toLowerCase (trimEnd s).
Proof.
  induction s as [|c s IH]; simpl; [done|].
  rewrite IH, is_space_lower_char.
  destruct (trimEnd s); simpl; [by destruct (is_space c)|done].
Qed.

Lemma trim_toLowerCase s : trim (toLowerCase s) = toLowerCase (trim s).
Proof. unfold trim. by rewrite trimStart_toLowerCase, trimEnd_toLowerCase. Qed.

Lemma trimEnd_empty s : trimEnd s = "" ↔ whitespace_only s = true.
Proof.
  induction s as [|c s IH]; simpl; [done|].
  destruct (trimEnd s) eqn:E.
  - destruct (is_space c); simpl; [tauto|]. split; discriminate.
  - rewrite andb_true_iff. split; [discriminate|]. intros [_ H]. apply IH in H. discriminate.
Qed.

Lemma whitespace_only_trimStart s : whitespace_only (trimStart s) = whitespace_only s.
Proof. induction s as [|c s IH]; simpl; [done|]. destruct (is_space c) eqn:E; simpl; [done|by rewrite E]. Qed.

Lemma trim_empty s : trim s = "" ↔ whitespace_only s = true.
Proof. unfold trim. by rewrite trimEnd_empty, whitespace_only_trimStart. Qed.

Lemma whitespace_only_toLowerCase s : whitespace_only (toLowerCase s) = whitespace_only s.
Proof. induction s; simpl; [done|]. by rewrite is_space_lower_char, IHs. Qed.

Lemma includes_ci v q :
  includes (toLowerCase v) (toLowerCase q) = true ↔ ci_contains v q.
Proof.
  rewrite includes_spec. split.
  - intros (a & b & H). apply toLowerCase_app_inv in H as (pre & rest & -> & <- & H).
    apply toLowerCase_app_inv in H as (mid & post & -> & H & <-).
    by exists pre, mid, post.
  - intros (pre & mid & post & -> & H).
    exists (toLowerCase pre), (toLowerCase post).
    by rewrite !toLowerCase_app, H.
Qed.

End JsFacts.

(** *** Maps *)

Module MapFacts.
Import Js Notions.

Lemma first_occurrences_cons x l :
  first_occurrences (x :: l) = x :: filter (λ y, y ≠ x) (first_occurrences l).
Proof. reflexivity. Qed.

Lemma elem_of_first_occurrences x l : x ∈ first_occurrences l ↔ x ∈ l.
Proof.
  induction l as [|y l IH]; [done|].
  rewrite first_occurrences_cons, !elem_of_cons, list_elem_of_filter, IH.
  destruct (decide (x = y)); tauto.
Qed.

Lemma NoDup_first_occurrences l : NoDup (first_occurrences l).
Proof.
  induction l as [|y l IH]; [constructor|].
  rewrite first_occurrences_cons.
  constructor; [|by apply NoDup_filter].
  rewrite list_elem_of_filter. tauto.
Qed.

Lemma first_occurrences_snoc l y :
  first_occurrences (l ++ [y]) =
  if decide (y ∈ l) then first_occurrences l else first_occurrences l ++ [y].
Proof.
  induction l as [|x l IH].
  - destruct (decide (y ∈ [])) as [Hin|_]; [by apply elem_of_nil in Hin|done].
  - rewrite <- app_comm_cons, !first_occurrences_cons, IH.
    destruct (decide (y ∈ l)) as [Hin|Hnin].
    + destruct (decide (y ∈ x :: l)) as [_|Hn]; [done|].
      destruct Hn. by right.
    + rewrite filter_app, filter_cons, filter_nil.
      destruct (decide (y = x)) as [->|Hne].
      * destruct (decide (x ∈ x :: l)) as [_|Hn]; [|destruct Hn; left].
        destruct (decide (x ≠ x)); [done|]. by rewrite app_nil_r.
      * destruct (decide (y ∈ x :: l)) as [Hin|_].
        { apply elem_of_cons in Hin as [|]; done. }
        destruct (decide (y ≠ x)); done.
Qed.

Lemma filter_ne_notin (x : string) (l : list string) :
  x ∉ l → filter (λ y, y ≠ x) l = l.
Proof.
  induction l as [|z l IH]; [done|].
  rewrite not_elem_of_cons. intros [Hne Hnin].
  rewrite filter_cons. destruct (decide (z ≠ x)) as [_|Hn].
  - by rewrite IH.
  - destruct Hn. congruence.
Qed.

Lemma first_occurrences_NoDup l : NoDup l → first_occurrences l = l.
Proof.
  induction 1 as [|x l Hx _ IH]; [done|].
  rewrite first_occurrences_cons, IH. f_equal. by apply filter_ne_notin.
Qed.

Section map.
Context {V : Type}.
Implicit Types (m : Map V) (k : string) (v : V).

Lemma map_get_set_eq k v m : map_get k (map_set k v m) = Some v.
Proof.
  induction m as [|[k' v'] m IH]; simpl.
  - by rewrite String.eqb_refl.
  - destruct (String.eqb_spec k' k) as [->|Hne]; simpl.
    + by rewrite String.eqb_refl.
    + by destruct (String.eqb_spec k' k).
Qed.

Lemma map_get_set_ne k k' v m : k ≠ k' → map_get k' (map_set k v m) = map_get k' m.
Proof.
  intros Hne. induction m as [|[k0 v0] m IH]; simpl.
  - by destruct (String.eqb_spec k k').
  - destruct (String.eqb_spec k0 k) as [->|Hne0]; simpl.
    + by destruct (String.eqb_spec k k').
    + by rewrite IH.
Qed.

Lemma map_get_None k m : map_get k m = None ↔ k ∉ map_keys m.
Proof.
  unfold map_keys. induction m as [|[k0 v0] m IH]; simpl.
  - split; [intros _; apply not_elem_of_nil|done].
  - rewrite not_elem_of_cons. destruct (String.eqb_spec k0 k) as [->|Hne].
    + split; [done|]. intros [Hk _]. done.
    + rewrite IH. split; [by split|tauto].
Qed.

Lemma map_get_Some_elem k v m : map_get k m = Some v → (k, v) ∈ m.
Proof.
  induction m as [|[k0 v0] m IH]; simpl; [done|].
  destruct (String.eqb_spec k0 k) as [->|Hne].
  - intros [= ->]. left.
  - intros H. right. auto.
Qed.

Lemma elem_map_get k v m : NoDup (map_keys m) → (k, v) ∈ m → map_get k m = Some v.
Proof.
  unfold map_keys. induction m as [|[k0 v0] m IH]; simpl.
  - intros _ H. by apply elem_of_nil in H.
  - rewrite NoDup_cons, elem_of_cons. intros [Hk0 Hnd] [[= -> ->]|Hin].
    + by rewrite String.eqb_refl.
    + destruct (String.eqb_spec k0 k) as [->|Hne]; [|auto].
      destruct Hk0. apply list_elem_of_fmap. by exists (k, v).
Qed.

Lemma map_has_true k m : map_has k m = true ↔ k ∈ map_keys m.
Proof.
  unfold map_has. destruct (map_get k m) eqn:E.
  - split; [intros _|done]. destruct (decide (k ∈ map_keys m)) as [|Hn]; [done|].
    apply map_get_None in Hn. congruence.
  - apply map_get_None in E. split; [discriminate|done].
Qed.

Lemma map_keys_set k v m :
  map_keys (map_set k v m) = if map_has k m then map_keys m else map_keys m ++ [k].
Proof.
  unfold map_keys, map_has. induction m as [|[k0 v0] m IH]; csimpl; [done|].
  destruct (String.eqb_spec k0 k) as [->|Hne]; csimpl; [done|].
  rewrite IH. by destruct (map_get k m).
Qed.

Lemma map_values_set v0 k v m :
  v0 ∈ map_values (map_set k v m) → v0 = v ∨ v0 ∈ map_values m.
Proof.
  unfold map_values. induction m as [|[k1 v1] m IH]; simpl.
  - rewrite list_elem_of_singleton. auto.
  - destruct (String.eqb_spec k1 k) as [->|Hne]; simpl; rewrite !elem_of_cons.
    + tauto.
    + intros [->|Hin]; [tauto|]. apply IH in Hin. tauto.
Qed.

Lemma map_values_set_NoDup k v m :
  NoDup (map_values m) → v ∉ map_values m → NoDup (map_values (map_set k v m)).
Proof.
  unfold map_values. induction m as [|[k1 v1] m IH]; simpl.
  - intros _ _. apply NoDup_singleton.
  - rewrite NoDup_cons, not_elem_of_cons. intros [H1 Hnd] [Hne Hv].
    destruct (String.eqb_spec k1 k) as [->|Hk]; simpl.
    + by constructor.
    + constructor; [|auto]. intros Hin. apply map_values_set in Hin as [->|Hin]; done.
Qed.

End map.
End MapFacts.

(** ** The first pass of [buildEmployeeMap] *)

Module NodePass.
Import Js JsFacts MapFacts DataProcessing Notions.

Lemma usable_id_Some row i : usable_id row = Some i ↔ row_id row = Some i ∧ i ≠ "".
Proof.
  unfold usable_id. destruct (truthy (row_id row)) eqn:E.
  - apply truthy_inv in E as (s & -> & Hs). split; [by intros [= ->]|by intros [[= ->] _]].
  - apply truthy_false in E as [->| ->]; split; try done; intros [[= <-] ?]; done.
Qed.

Lemma usable_id_None row : usable_id row = None ↔ row_id row = None ∨ row_id row = Some "".
Proof.
  unfold usable_id. destruct (truthy (row_id row)) eqn:E.
  - apply truthy_inv in E as (s & -> & Hs). split; [done|]. intros [|[= ->]]; done.
  - by apply truthy_false in E.
Qed.

Lemma node_step_usable st row :
  node_step st row =
  match usable_id row with
  | Some i => (st.1 ++ [new_employee i row], map_set i (length st.1) st.2)
  | None => st
  end.
Proof.
  unfold node_step, usable_id. destruct (row_id row) as [i|]; simpl; [|done].
  by destruct (String.eqb i "").
Qed.

Lemma node_pass_snoc rows row :
  node_pass (rows ++ [row]) = node_step (node_pass rows) row.
Proof. unfold node_pass. by rewrite fold_left_app. Qed.

Lemma last_record_snoc rows row k :
  last_record (rows ++ [row]) k =
  if decide (usable_id row = Some k) then Some row else last_record rows k.
Proof.
  induction rows as [|r rows IH]; simpl.
  - by destruct (decide (usable_id row = Some k)).
  - rewrite IH. destruct (decide (usable_id row = Some k)); [done|].
    by destruct (last_record rows k).
Qed.

Lemma last_record_Some rows k r :
  last_record rows k = Some r → usable_id r = Some k ∧ r ∈ rows.
Proof.
  induction rows as [|r0 rows IH]; simpl; [done|].
  destruct (last_record rows k) as [r'|].
  - intros [= ->]. destruct IH as [? ?]; [done|]. split; [done|by right].
  - destruct (decide (usable_id r0 = Some k)); [|done].
    intros [= ->]. split; [done|left].
Qed.

Lemma last_record_None rows k :
  last_record rows k = None ↔ k ∉ input_ids rows.
Proof.
  unfold input_ids. induction rows as [|r rows IH]; simpl.
  - split; [intros _; apply not_elem_of_nil|done].
  - destruct (last_record rows k) as [r'|].
    + split; [done|]. intros Hn. destruct IH as [_ IH].
      destruct (usable_id r); [rewrite not_elem_of_cons in Hn|]; by (discriminate IH; tauto).
    + destruct IH as [IH _]. specialize (IH eq_refl).
      destruct (usable_id r) as [i|].
      * rewrite not_elem_of_cons. destruct (decide (Some i = Some k)) as [[= ->]|Hne].
        -- split; [done|]. intros [? _]. done.
        -- split; [|done]. intros _. split; [congruence|done].
      * destruct (decide (None = Some k)); [done|]. done.
Qed.

Lemma new_employee_managerId i row : managerId (new_employee i row) ≠ Some "".
Proof.
  simpl. destruct (truthy (row_managerId row)) eqn:E; [|done].
  apply truthy_inv in E as (s & -> & Hs). congruence.
Qed.

Lemma input_ids_snoc rows row :
  input_ids (rows ++ [row]) =
  input_ids rows ++ match usable_id row with Some i => [i] | None => [] end.
Proof.
  unfold input_ids. rewrite omap_app. simpl. by destruct (usable_id row).
Qed.

Lemma node_pass_inv rows : node_inv rows (node_pass rows).1 (node_pass rows).2.
Proof.
  induction rows as [|row rows IH] using rev_ind.
  - split; simpl; try done. constructor. intros l Hl. by apply elem_of_nil in Hl.
  - rewrite node_pass_snoc, node_step_usable.
    destruct (node_pass rows) as [h m]. simpl in IH. destruct IH as [Hh Hk Hs Hv Hb].
    pose proof (input_ids_snoc rows row) as Hids.
    destruct (usable_id row) as [i|] eqn:Hi; simpl.
    + split.
      * apply Forall_app. split; [done|]. constructor; [|done].
        split; [done|apply new_employee_managerId].
      * rewrite map_keys_set, Hids, first_occurrences_snoc, Hk.
        destruct (map_has i m) eqn:Hhas.
        -- apply map_has_true in Hhas. rewrite Hk, elem_of_first_occurrences in Hhas.
           by destruct (decide (i ∈ input_ids rows)).
        -- destruct (decide (i ∈ input_ids rows)) as [Hin|]; [|done].
           apply elem_of_first_occurrences in Hin. rewrite <- Hk in Hin.
           apply map_has_true in Hin. congruence.
      * intros k l. rewrite last_record_snoc.
        destruct (decide (i = k)) as [->|Hne].
        -- rewrite map_get_set_eq. intros [= <-]. exists row.
           rewrite decide_True by done. split; [done|].
           by rewrite lookup_app_r, Nat.sub_diag.
        -- rewrite map_get_set_ne by done. intros Hg.
           destruct (Hs _ _ Hg) as (r & Hr & Hl). exists r.
           rewrite decide_False by congruence. split; [done|].
           by apply lookup_app_l_Some.
      * apply map_values_set_NoDup; [done|]. intros Hin. apply Hb in Hin. lia.
      * intros l Hl. rewrite length_app. simpl.
        apply map_values_set in Hl as [->|Hl]; [lia|]. apply Hb in Hl. lia.
    + rewrite app_nil_r in Hids. split; try done.
      * by rewrite Hids.
      * intros k l Hg. destruct (Hs _ _ Hg) as (r & Hr & Hl). exists r.
        rewrite last_record_snoc. rewrite decide_False by congruence. done.
Qed.

End NodePass.

(** ** The second pass of [buildEmployeeMap] *)

Module LinkPass.
Import Js JsFacts MapFacts DataProcessing Notions.

Lemma add_children_nil e : add_children [] e = e.
Proof. destruct e. unfold add_children. simpl. by rewrite app_nil_r. Qed.

Lemma push_child_add_children c cs e :
  push_child c (add_children cs e) = add_children (cs ++ [c]) e.
Proof. unfold push_child, add_children. simpl. by rewrite app_assoc. Qed.

Lemma linked_snoc h m es entry manager :
  linked h m (es ++ [entry]) manager =
  linked h m es manager ++ (if reports_to h m manager entry then [entry.2] else []).
Proof.
  unfold linked. rewrite filter_app, fmap_app, filter_cons, filter_nil.
  destruct (reports_to h m manager entry) eqn:E.
  - by rewrite decide_True by done.
  - by rewrite decide_False by done.
Qed.

(** The second pass in closed form: every object gets the entries that
    report to it, in the order in which the entries are visited. *)
Lemma link_fold h m es w :
  fold_left (link_step m) es (h, w) =
  (imap (λ l e, add_children (linked h m es l) e) h, w ++ omap (warning_of h m) es).
Proof.
  induction es as [|[k l] es IH] using rev_ind.
  - simpl. rewrite app_nil_r. f_equal. apply list_eq. intros i.
    rewrite list_lookup_imap. destruct (h !! i); simpl; [|done].
    by rewrite add_children_nil.
  - rewrite fold_left_app, IH, omap_app. simpl.
    unfold link_step, warning_of. simpl. rewrite list_lookup_imap.
    assert (Hsame : ∀ i, reports_to h m i (k, l) = false →
              linked h m (es ++ [(k, l)]) i = linked h m es i).
    { intros i Hi. by rewrite linked_snoc, Hi, app_nil_r. }
    destruct (h !! l) as [e|] eqn:El; simpl.
    + destruct (managerId e) as [mid|] eqn:Emid; simpl.
      * destruct (negb (String.eqb mid "")) eqn:Etr; simpl.
        -- destruct (map_get mid m) as [manager|] eqn:Eget; simpl.
           ++ rewrite app_nil_r. f_equal. apply list_eq. intros i.
              rewrite list_lookup_alter, !list_lookup_imap, linked_snoc.
              unfold reports_to. simpl. rewrite El, Emid. simpl. rewrite Etr, Eget. simpl.
              destruct (decide (manager = i)) as [->|Hne]; case_bool_decide; try congruence.
              ** destruct (h !! i); simpl; [|done]. by rewrite push_child_add_children.
              ** by rewrite app_nil_r.
           ++ f_equal; [|by rewrite app_assoc].
              apply list_eq. intros i. rewrite !list_lookup_imap, Hsame; [done|].
              unfold reports_to. simpl. rewrite El, Emid. simpl. rewrite Etr, Eget. simpl.
              done.
        -- rewrite app_nil_r. f_equal.
           apply list_eq. intros i. rewrite !list_lookup_imap, Hsame; [done|].
           unfold reports_to. simpl. rewrite El, Emid. simpl. by rewrite Etr.
      * rewrite app_nil_r. f_equal.
        apply list_eq. intros i. rewrite !list_lookup_imap, Hsame; [done|].
        unfold reports_to. simpl. by rewrite El, Emid.
    + rewrite app_nil_r. f_equal.
      apply list_eq. intros i. rewrite !list_lookup_imap, Hsame; [done|].
      unfold reports_to. simpl. by rewrite El.
Qed.

End LinkPass.

(** ** The built index *)

Module BuildFacts.
Import Js JsFacts MapFacts DataProcessing Notions NodePass LinkPass.

Lemma build_eq rows :
  buildEmployeeMap rows =
  {| store := imap (λ l e, add_children
                (linked (node_pass rows).1 (node_pass rows).2 (node_pass rows).2 l) e)
                (node_pass rows).1;
     employeeMap := (node_pass rows).2;
     warnings := omap (warning_of (node_pass rows).1 (node_pass rows).2) (node_pass rows).2 |}.
Proof.
  unfold buildEmployeeMap, link_pass. destruct (node_pass rows) as [h m].
  by rewrite link_fold.
Qed.

Section built.
Variable rows : list RawCsvRow.
Let h := (node_pass rows).1.
Let m := (node_pass rows).2.
Let b := buildEmployeeMap rows.

Local Lemma inv : node_inv rows h m.
Proof. apply node_pass_inv. Qed.

Lemma employeeMap_build : employeeMap b = m.
Proof. unfold b. by rewrite build_eq. Qed.

Lemma warnings_build : warnings b = omap (warning_of h m) m.
Proof. unfold b. by rewrite build_eq. Qed.

Lemma store_lookup l : store b !! l = add_children (linked h m m l) <$> h !! l.
Proof. unfold b. rewrite build_eq. simpl. by rewrite list_lookup_imap. Qed.

Lemma keys_NoDup : NoDup (map_keys m).
Proof. rewrite (ni_keys _ _ _ inv). apply NoDup_first_occurrences. Qed.

Lemma index_has k : is_Some (map_get k m) ↔ k ∈ input_ids rows.
Proof.
  rewrite <- elem_of_first_occurrences, <- (ni_keys _ _ _ inv).
  destruct (map_get k m) eqn:E.
  - split; [intros _|by eauto]. destruct (decide (k ∈ map_keys m)) as [|Hn]; [done|].
    apply map_get_None in Hn. congruence.
  - apply map_get_None in E. split; [by intros [? ?]|done].
Qed.

Lemma index_of_last_record k r :
  last_record rows k = Some r → ∃ l, map_get k m = Some l.
Proof.
  intros Hr. apply index_has. destruct (decide (k ∈ input_ids rows)) as [|Hn]; [done|].
  apply last_record_None in Hn. congruence.
Qed.

(** An object of the first pass: no children yet, and a manager
    reference that is either [null] or a non-empty string. *)
Lemma heap_object l e0 :
  h !! l = Some e0 → children e0 = [] ∧ managerId e0 ≠ Some "".
Proof. intros Hl. exact (Forall_lookup_1 _ _ _ _ (ni_heap _ _ _ inv) Hl). Qed.

Lemma store_object l e :
  store b !! l = Some e →
  ∃ e0, h !! l = Some e0 ∧ id e = id e0 ∧ managerId e = managerId e0 ∧
        name e = name e0 ∧ children e = linked h m m l ∧ managerId e ≠ Some "".
Proof.
  rewrite store_lookup. destruct (h !! l) as [e0|] eqn:E; [|done].
  intros [= <-]. exists e0. destruct (heap_object _ _ E) as [Hc Hm].
  simpl. by rewrite Hc.
Qed.

Lemma index_node k l :
  map_get k m = Some l →
  ∃ r e, last_record rows k = Some r ∧ store b !! l = Some e ∧
         h !! l = Some (new_employee k r) ∧
         id e = k ∧ managerId e = managerId (new_employee k r) ∧
         name e = name (new_employee k r) ∧ children e = linked h m m l.
Proof.
  intros Hg. destruct (ni_some _ _ _ inv _ _ Hg) as (r & Hr & Hl).
  exists r, (add_children (linked h m m l) (new_employee k r)).
  rewrite store_lookup, Hl. done.
Qed.

Lemma index_loc_inj k k' l : map_get k m = Some l → map_get k' m = Some l → k = k'.
Proof.
  intros H1 H2.
  destruct (ni_some _ _ _ inv _ _ H1) as (r1 & _ & Hl1).
  destruct (ni_some _ _ _ inv _ _ H2) as (r2 & _ & Hl2).
  rewrite Hl1 in Hl2. by injection Hl2.
Qed.

Lemma reports_to_true l k c :
  reports_to h m l (k, c) = true ↔
  ∃ e mid, h !! c = Some e ∧ managerId e = Some mid ∧ map_get mid m = Some l.
Proof.
  unfold reports_to. simpl. destruct (h !! c) as [e|] eqn:E.
  - destruct (managerId e) as [mid|] eqn:Em.
    + change (negb (mid =? "")) with (truthy (Some mid)).
      rewrite andb_true_iff, bool_decide_eq_true, truthy_Some. split.
      * intros [_ Hg]. by exists e, mid.
      * intros (e' & mid' & [= <-] & Hm' & Hg). rewrite Em in Hm'.
        injection Hm' as <-. split; [|done].
        intros ->. by destruct (heap_object _ _ E) as [_ ?].
    + split; [done|]. intros (e' & mid' & [= <-] & Hm' & _). congruence.
  - split; [done|]. intros (e' & mid' & ? & _). done.
Qed.

Lemma linked_elem c l :
  c ∈ linked h m m l ↔
  ∃ k e mid, map_get k m = Some c ∧ h !! c = Some e ∧
             managerId e = Some mid ∧ map_get mid m = Some l.
Proof.
  unfold linked. rewrite list_elem_of_fmap. split.
  - intros ([k c'] & -> & Hin). apply list_elem_of_filter in Hin as [Hr Hin].
    apply reports_to_true in Hr as (e & mid & ? & ? & ?).
    exists k, e, mid. split; [|done]. apply elem_map_get; [apply keys_NoDup|done].
  - intros (k & e & mid & Hg & He & Hm & Hl). exists (k, c). split; [done|].
    apply list_elem_of_filter. split; [|by apply map_get_Some_elem].
    apply reports_to_true. by exists e, mid.
Qed.

Lemma linked_NoDup l : NoDup (linked h m m l).
Proof.
  unfold linked. eapply sublist_NoDup; [exact (ni_vals _ _ _ inv)|].
  unfold map_values. apply fmap_sublist, sublist_filter.
Qed.

End built.
End BuildFacts.

(** * Properties of the builder *)

Module BuildSpec.
Import Js JsFacts MapFacts DataProcessing Notions Notions2 Notions3 NodePass LinkPass BuildFacts.
Import Examples Examples2 Examples5.

Lemma new_employee_manager_truthy i row mid :
  row_managerId row = Some mid → mid ≠ "" → managerId (new_employee i row) = Some mid.
Proof.
  intros Hr Hne. simpl. rewrite Hr.
  by rewrite (proj2 (truthy_Some mid) Hne).
Qed.

Lemma warning_elem rows k l e mid :
  map_get k (node_pass rows).2 = Some l →
  (node_pass rows).1 !! l = Some e →
  managerId e = Some mid →
  map_get mid (node_pass rows).2 = None →
  ManagerNotFound mid (id e) ∈ warnings (buildEmployeeMap rows).
Proof.
  intros Hg Hl Hm Hn. rewrite warnings_build. apply list_elem_of_omap.
  exists (k, l). split; [by apply map_get_Some_elem|].
  unfold warning_of. cbn [snd]. rewrite Hl, Hm, Hn.
  destruct (heap_object _ _ _ Hl) as [_ Hne].
  rewrite (proj2 (truthy_Some mid)); [done|]. intros ->. by rewrite Hm in Hne.
Qed.

Lemma warning_inv rows mid k :
  ManagerNotFound mid k ∈ warnings (buildEmployeeMap rows) →
  ∃ l e, map_get k (node_pass rows).2 = Some l ∧ (node_pass rows).1 !! l = Some e ∧
         managerId e = Some mid ∧ map_get mid (node_pass rows).2 = None.
Proof.
  rewrite warnings_build. intros ([k' l] & Hin & Hw)%list_elem_of_omap.
  apply elem_map_get in Hin; [|apply keys_NoDup].
  destruct (ni_some _ _ _ (node_pass_inv rows) _ _ Hin) as (r & _ & Hl).
  assert (Hid : id (new_employee k' r) = k') by done.
  remember (new_employee k' r) as e0 eqn:He0. clear He0.
  unfold warning_of in Hw. cbn [snd] in Hw. rewrite Hl in Hw.
  destruct (managerId e0) as [mid'|] eqn:Em; [|done].
  destruct (truthy (Some mid')); [|done].
  destruct (map_get mid' (node_pass rows).2) eqn:Eg; [done|].
  injection Hw as -> <-. exists l, e0. by rewrite Hid.
Qed.

(** C1, as the code has it: a node whose manager reference resolves to no
    id of the index stays in the index with the manager reference of its
    record and is in no [children] array.  The build returns the index
    alone, without a list of such nodes: the node is reported by a console
    warning naming it, and it passes the root-candidate test of the upload
    handler.  The build itself is a total function. *)
Theorem unresolved_manager_retained
    (rows : list RawCsvRow) (k mid : string) (r : RawCsvRow) :
  last_record rows k = Some r →
  row_managerId r = Some mid → mid ≠ "" →
  map_get mid (employeeMap (buildEmployeeMap rows)) = None →
  ∃ l e,
    map_get k (employeeMap (buildEmployeeMap rows)) = Some l ∧
    store (buildEmployeeMap rows) !! l = Some e ∧
    id e = k ∧ managerId e = Some mid ∧
    (∀ l' e', store (buildEmployeeMap rows) !! l' = Some e' → l ∉ children e') ∧
    ManagerNotFound mid k ∈ warnings (buildEmployeeMap rows) ∧
    App.is_root_candidate (employeeMap (buildEmployeeMap rows)) e = true.
Proof.
  rewrite employeeMap_build. intros Hr Hmgr Hne Hun.
  destruct (index_of_last_record _ _ _ Hr) as [l Hg].
  destruct (index_node _ _ _ Hg) as (r' & e & Hr' & He & Hl & Hid & Hm & _ & _).
  assert (r' = r) as -> by congruence.
  rewrite (new_employee_manager_truthy k _ _ Hmgr Hne) in Hm.
  exists l, e. repeat split; try done.
  - intros l' e' He' Hin.
    destruct (store_object _ _ _ He') as (_ & _ & _ & _ & _ & Hc & _).
    rewrite Hc in Hin. apply linked_elem in Hin as (k2 & e2 & mid2 & _ & Hl2 & Hm2 & Hg2).
    rewrite Hl in Hl2. injection Hl2 as <-.
    rewrite (new_employee_manager_truthy k _ _ Hmgr Hne) in Hm2. congruence.
  - apply (warning_elem rows k l (new_employee k r) mid Hg Hl); [|done].
    by apply (new_employee_manager_truthy k).
  - unfold App.is_root_candidate, map_has. rewrite Hm, Hun. apply orb_true_r.
Qed.


(** *** Children *)

Lemma node_at_index rows k l :
  map_get k (node_pass rows).2 = Some l →
  node_at (buildEmployeeMap rows) k = store (buildEmployeeMap rows) !! l.
Proof. intros Hg. unfold node_at. rewrite employeeMap_build, Hg. done. Qed.

Lemma manager_key_reports rows km lm k c :
  map_get km (node_pass rows).2 = Some lm →
  map_get k (node_pass rows).2 = Some c →
  reports_to (node_pass rows).1 (node_pass rows).2 lm (k, c) = true ↔
  manager_key (buildEmployeeMap rows) k = Some km.
Proof.
  intros Hkm Hk. rewrite reports_to_true. unfold manager_key.
  rewrite (node_at_index _ _ _ Hk).
  destruct (index_node _ _ _ Hk) as (r & e & _ & He & Hl & _ & Hm & _).
  rewrite He. simpl. rewrite Hm. split.
  - intros (e0 & mid & Hl0 & Hm0 & Hg0). rewrite Hl in Hl0. injection Hl0 as <-.
    rewrite Hm0. f_equal. by apply (index_loc_inj rows mid km lm).
  - intros Hmk. by exists (new_employee k r), km.
Qed.

Lemma omap_cons {A B} (f : A → option B) (x : A) (l : list A) :
  omap f (x :: l) = match f x with Some y => y :: omap f l | None => omap f l end.
Proof. reflexivity. Qed.

Lemma child_ids_filter rows km lm (es : list (string * loc)) :
  map_get km (node_pass rows).2 = Some lm →
  Forall (λ entry, map_get entry.1 (node_pass rows).2 = Some entry.2) es →
  omap (λ c, id <$> store (buildEmployeeMap rows) !! c)
       (filter (λ entry, reports_to (node_pass rows).1 (node_pass rows).2 lm entry = true) es).*2
  = filter (λ k, manager_key (buildEmployeeMap rows) k = Some km) es.*1.
Proof.
  intros Hkm. induction 1 as [|[k c] es Hk _ IH]; [done|]. cbn [fst snd] in Hk.
  pose proof (manager_key_reports rows km lm k c Hkm Hk) as Hiff.
  rewrite fmap_cons, !filter_cons. cbn [fst snd].
  destruct (decide (reports_to (node_pass rows).1 (node_pass rows).2 lm (k, c) = true)) as [Hr|Hr].
  - rewrite decide_True by by apply Hiff.
    rewrite fmap_cons, omap_cons. cbn [snd].
    destruct (index_node _ _ _ Hk) as (r & e & _ & He & _ & Hid & _).
    rewrite He. cbn [fmap option_fmap option_map]. by rewrite Hid, IH.
  - rewrite decide_False; [done|]. intros Hq. by apply Hr, Hiff.
Qed.

(** The children of a node, by id: the ids of the input, each at its first
    occurrence, whose node names it as manager. *)
Lemma child_ids_order rows km lm em :
  map_get km (node_pass rows).2 = Some lm →
  store (buildEmployeeMap rows) !! lm = Some em →
  child_ids (buildEmployeeMap rows) em =
  filter (λ k, manager_key (buildEmployeeMap rows) k = Some km)
         (first_occurrences (input_ids rows)).
Proof.
  intros Hkm Hem.
  destruct (store_object _ _ _ Hem) as (_ & _ & _ & _ & _ & Hc & _).
  unfold child_ids. rewrite Hc. unfold linked.
  rewrite (child_ids_filter rows km lm _ Hkm).
  - f_equal. apply (ni_keys _ _ _ (node_pass_inv rows)).
  - apply Forall_forall. intros [k c] Hin. simpl.
    apply elem_map_get; [apply keys_NoDup|done].
Qed.

(** Every element of a [children] array names the owner as its manager. *)
Lemma child_names_owner rows l' e' c :
  store (buildEmployeeMap rows) !! l' = Some e' → c ∈ children e' →
  ∃ ec, store (buildEmployeeMap rows) !! c = Some ec ∧ managerId ec = Some (id e') ∧
        map_get (id ec) (node_pass rows).2 = Some c.
Proof.
  intros He' Hin.
  destruct (store_object _ _ _ He') as (e0' & Hl0' & Hid' & _ & _ & Hc' & _).
  rewrite Hc' in Hin. apply linked_elem in Hin as (k2 & e2 & mid2 & Hk2 & Hl2 & Hm2 & Hg2).
  destruct (index_node _ _ _ Hk2) as (r2 & ec & _ & Hec & Hlc & Hidc & Hmc & _).
  exists ec. rewrite Hidc. repeat split; [done| |done].
  rewrite Hmc. rewrite Hl2 in Hlc. injection Hlc as <-. rewrite Hm2. f_equal.
  destruct (index_node _ _ _ Hg2) as (rm & em & _ & Hem & _ & Hidm & _).
  congruence.
Qed.

(** C5, as the code has it: a node whose manager reference resolves occurs
    once in the [children] of that manager and in no other [children]
    array; every element of a [children] array names the owner as its
    manager; and the children of a node are, in order, the ids of the input,
    each at its first occurrence, whose node names it as manager. *)
Theorem children_exclusive_in_first_occurrence_order (rows : list RawCsvRow) :
  let b := buildEmployeeMap rows in
  (∀ k l e mid lm,
      map_get k (employeeMap b) = Some l → store b !! l = Some e →
      managerId e = Some mid → map_get mid (employeeMap b) = Some lm →
      ∃ em, store b !! lm = Some em ∧ l ∈ children em ∧ NoDup (children em) ∧
            ∀ l' e', store b !! l' = Some e' → l ∈ children e' → l' = lm) ∧
  (∀ l' e' c,
      store b !! l' = Some e' → c ∈ children e' →
      ∃ ec, store b !! c = Some ec ∧ managerId ec = Some (id e') ∧
            map_get (id ec) (employeeMap b) = Some c) ∧
  (∀ km lm em,
      map_get km (employeeMap b) = Some lm → store b !! lm = Some em →
      child_ids b em =
      filter (λ k, manager_key b k = Some km) (first_occurrences (input_ids rows))).
Proof.
  intros b. unfold b. rewrite employeeMap_build. repeat split.
  - intros k l e mid lm Hk He Hm Hmid.
    destruct (store_object _ _ _ He) as (e0 & Hl0 & _ & Hm0 & _ & _ & _).
    rewrite Hm in Hm0.
    destruct (index_node _ _ _ Hmid) as (rm & em & _ & Hem & _ & _ & _ & _ & Hc).
    exists em. rewrite Hc. repeat split; [done| | |].
    + apply linked_elem. by exists k, e0, mid.
    + apply linked_NoDup.
    + intros l' e' He' Hin.
      destruct (store_object _ _ _ He') as (_ & _ & _ & _ & _ & Hc' & _).
      rewrite Hc' in Hin. apply linked_elem in Hin as (k2 & e2 & mid2 & _ & Hl2 & Hm2 & Hg2).
      congruence.
  - intros l' e' c He' Hin. by apply child_names_owner with l'.
  - intros km lm em Hkm Hem. by apply child_ids_order with lm.
Qed.

(** *** Repeated ids *)

Lemma last_record_split rows k r :
  last_record rows k = Some r →
  ∃ pre post, rows = pre ++ r :: post ∧ usable_id r = Some k ∧ k ∉ input_ids post.
Proof.
  induction rows as [|r0 rows IH]; simpl; [done|].
  destruct (last_record rows k) as [r'|] eqn:E.
  - intros [= ->]. destruct (IH eq_refl) as (pre & post & -> & ? & ?).
    by exists (r0 :: pre), post.
  - destruct (decide (usable_id r0 = Some k)); [|done]. intros [= ->].
    exists [], rows. repeat split; [done|]. by apply last_record_None.
Qed.

Lemma heap_has_one_object_per_id_record rows :
  length (node_pass rows).1 = length (input_ids rows).
Proof.
  induction rows as [|row rows IH] using rev_ind; [done|].
  rewrite node_pass_snoc, node_step_usable, input_ids_snoc, length_app.
  destruct (usable_id row); simpl; [|lia].
  rewrite length_app. simpl. lia.
Qed.

(** The index refers to the object that the last record with the id has
    created. *)
Lemma last_record_loc pre r post k :
  usable_id r = Some k → k ∉ input_ids post →
  map_get k (node_pass (pre ++ r :: post)).2 = Some (length (input_ids pre)).
Proof.
  intros Hr. induction post as [|x post IH] using rev_ind; intros Hk.
  - rewrite node_pass_snoc, node_step_usable, Hr. simpl.
    by rewrite map_get_set_eq, heap_has_one_object_per_id_record.
  - rewrite input_ids_snoc in Hk. apply not_elem_of_app in Hk as [Hpost Hx].
    replace (pre ++ r :: post ++ [x]) with ((pre ++ r :: post) ++ [x])
      by (by rewrite <- app_assoc).
    rewrite node_pass_snoc, node_step_usable.
    destruct (usable_id x) as [i|]; simpl; [|by apply IH].
    rewrite map_get_set_ne; [by apply IH|].
    intros ->. apply Hx. left.
Qed.

(** An object the index does not refer to has no children and is nobody's
    child. *)
Lemma object_outside_index rows l e :
  store (buildEmployeeMap rows) !! l = Some e →
  (∀ k, map_get k (node_pass rows).2 ≠ Some l) →
  children e = [] ∧ ¬ is_child (buildEmployeeMap rows) l.
Proof.
  intros He Hout. split.
  - destruct (store_object _ _ _ He) as (_ & _ & _ & _ & _ & Hc & _).
    rewrite Hc. destruct (linked _ _ _ l) as [|c cs] eqn:E; [done|].
    assert (Hin : c ∈ linked (node_pass rows).1 (node_pass rows).2 (node_pass rows).2 l)
      by (rewrite E; left).
    apply linked_elem in Hin as (k & e2 & mid & _ & _ & _ & Hg). by destruct (Hout mid).
  - intros (l' & e' & He' & Hin).
    destruct (store_object _ _ _ He') as (_ & _ & _ & _ & _ & Hc & _).
    rewrite Hc in Hin. apply linked_elem in Hin as (k & _ & _ & Hk & _). by destruct (Hout k).
Qed.

(** C2, as the code has it: the index holds one node per id.  It is the
    object created for the last record with that id, created with the
    fields of that record and without children; the children it has after
    the build all name it as manager; the objects of the earlier records
    with the id have no children and are nobody's child.  The place of the
    id in the iteration order of the index, and so among its siblings in a
    [children] array, is that of its first occurrence in the input. *)
Theorem duplicate_id_last_record_wins (rows : list RawCsvRow) (k : string) (r : RawCsvRow) :
  last_record rows k = Some r →
  let b := buildEmployeeMap rows in
  ∃ pre post l e,
    rows = pre ++ r :: post ∧ usable_id r = Some k ∧ (k ∉ input_ids post) ∧
    NoDup (map_keys (employeeMap b)) ∧
    map_get k (employeeMap b) = Some l ∧
    (∀ k', map_get k' (employeeMap b) = Some l → k' = k) ∧
    l = length (input_ids pre) ∧
    (node_pass rows).1 !! l = Some (new_employee k r) ∧
    children (new_employee k r) = [] ∧
    store b !! l = Some e ∧
    id e = k ∧
    managerId e = managerId (new_employee k r) ∧
    name e = name (new_employee k r) ∧
    (∀ c, c ∈ children e → ∃ ec, store b !! c = Some ec ∧ managerId ec = Some k) ∧
    (∀ l' e', store b !! l' = Some e' → id e' = k → l' ≠ l →
              children e' = [] ∧ ¬ is_child b l') ∧
    map_keys (employeeMap b) = first_occurrences (input_ids rows) ∧
    (∀ km lm em,
        map_get km (employeeMap b) = Some lm → store b !! lm = Some em →
        child_ids b em =
        filter (λ k', manager_key b k' = Some km) (first_occurrences (input_ids rows))).
Proof.
  intros Hr b. unfold b. rewrite employeeMap_build.
  destruct (last_record_split _ _ _ Hr) as (pre & post & Hrows & Hu & Hpost).
  pose proof (last_record_loc pre r post k Hu Hpost) as Hloc. rewrite <- Hrows in Hloc.
  destruct (index_node _ _ _ Hloc) as (r' & e & Hr' & He & Hl & Hid & Hm & Hn & _).
  assert (r' = r) as -> by congruence.
  exists pre, post, (length (input_ids pre)), e.
  split; [done|]. split; [done|]. split; [done|].
  split; [apply keys_NoDup|]. split; [done|].
  split; [intros k' Hk'; by apply (index_loc_inj rows k' k (length (input_ids pre)))|].
  split; [done|]. split; [done|]. split; [done|]. split; [done|].
  split; [done|]. split; [done|]. split; [done|].
  split; [|split; [|split]].
  - intros c Hc. destruct (child_names_owner rows _ _ c He Hc) as (ec & Hec & Hmc & _).
    exists ec. by rewrite <- Hid.
  - intros l' e' He' Hid' Hne. apply object_outside_index; [done|].
    intros k' Hk'. destruct (index_node _ _ _ Hk') as (r2 & e2 & _ & He2 & _ & Hid2 & _).
    assert (e2 = e') as -> by congruence.
    assert (k' = k) as -> by congruence. congruence.
  - apply (ni_keys _ _ _ (node_pass_inv rows)).
  - intros km lm em Hkm Hem. by apply child_ids_order with lm.
Qed.

(** *** Empty strings *)

Lemma absent_if_empty_Some v s : absent_if_empty v = Some s ↔ v = Some s ∧ s ≠ "".
Proof.
  unfold absent_if_empty. destruct (truthy v) eqn:E.
  - apply truthy_inv in E as (s' & -> & Hs). split; [by intros [= ->]|by intros [? _]].
  - apply truthy_false in E as [->| ->]; split; try done; by intros [[= <-] ?].
Qed.

Lemma lookup_strip_empty row key :
  strip_empty row !! key = absent_if_empty (row !! key).
Proof.
  apply option_eq. intros s. unfold strip_empty.
  by rewrite map_lookup_filter_Some, absent_if_empty_Some.
Qed.

Lemma truthy_absent_if_empty v : truthy (absent_if_empty v) = truthy v.
Proof. unfold absent_if_empty. by destruct (truthy v) eqn:E. Qed.

Lemma absent_if_empty_truthy v : truthy v = true → absent_if_empty v = v.
Proof. unfold absent_if_empty. by intros ->. Qed.

Lemma or_absent_if_empty a b :
  or (absent_if_empty a) (absent_if_empty b) = absent_if_empty (or a b).
Proof.
  unfold or. rewrite truthy_absent_if_empty. destruct (truthy a) eqn:E; [|done].
  by rewrite !absent_if_empty_truthy by (unfold or; by rewrite ?E).
Qed.

Lemma row_id_strip row : row_id (strip_empty row) = absent_if_empty (row_id row).
Proof. unfold row_id. by rewrite !lookup_strip_empty, or_absent_if_empty. Qed.

Lemma row_managerId_strip row :
  row_managerId (strip_empty row) = absent_if_empty (row_managerId row).
Proof. unfold row_managerId. by rewrite !lookup_strip_empty, !or_absent_if_empty. Qed.

Lemma row_name_strip row : row_name (strip_empty row) = absent_if_empty (row_name row).
Proof. unfold row_name. by rewrite !lookup_strip_empty, !or_absent_if_empty. Qed.

Lemma usable_id_strip row : usable_id (strip_empty row) = usable_id row.
Proof.
  unfold usable_id. rewrite row_id_strip, truthy_absent_if_empty.
  destruct (truthy (row_id row)) eqn:E; [|done]. by apply absent_if_empty_truthy.
Qed.

Lemma new_employee_strip i row : new_employee i (strip_empty row) = new_employee i row.
Proof.
  unfold new_employee. rewrite row_managerId_strip, row_name_strip, truthy_absent_if_empty.
  f_equal.
  - destruct (truthy (row_managerId row)) eqn:E; [|done]. by apply absent_if_empty_truthy.
  - unfold or. rewrite truthy_absent_if_empty.
    destruct (truthy (row_name row)) eqn:E; [|done]. by rewrite absent_if_empty_truthy.
Qed.

Lemma node_step_strip st row : node_step st (strip_empty row) = node_step st row.
Proof.
  rewrite !node_step_usable, usable_id_strip.
  destruct (usable_id row); [|done]. by rewrite new_employee_strip.
Qed.

Lemma node_pass_strip rows : node_pass (strip_empty <$> rows) = node_pass rows.
Proof.
  unfold node_pass. generalize (([], []) : Heap * Map loc).
  induction rows as [|row rows IH]; intros st; [done|].
  rewrite fmap_cons. simpl. by rewrite node_step_strip, IH.
Qed.

Lemma node_step_unusable st row : usable_id row = None → node_step st row = st.
Proof. intros H. by rewrite node_step_usable, H. Qed.

Lemma new_employee_no_manager i row :
  row_managerId row = None ∨ row_managerId row = Some "" →
  managerId (new_employee i row) = None.
Proof. intros [H|H]; simpl; by rewrite H. Qed.

(** C10: an empty string in a field counts as the field being absent.
    Removing the empty-string fields of every record changes nothing in the
    build; a record whose identifier is absent or empty creates no node; an
    absent or empty manager field gives [managerId = null], a node that is
    not reported as unresolved and is a root candidate; an absent or empty
    name gives the name ["Unknown"]. *)
Theorem empty_string_fields_are_absent :
  (∀ rows, buildEmployeeMap (strip_empty <$> rows) = buildEmployeeMap rows) ∧
  (∀ pre row post,
      row_id row = None ∨ row_id row = Some "" →
      buildEmployeeMap (pre ++ row :: post) = buildEmployeeMap (pre ++ post)) ∧
  (∀ rows k row,
      last_record rows k = Some row →
      row_managerId row = None ∨ row_managerId row = Some "" →
      ∃ l e, map_get k (employeeMap (buildEmployeeMap rows)) = Some l ∧
             store (buildEmployeeMap rows) !! l = Some e ∧
             managerId e = None ∧
             (∀ mid, ManagerNotFound mid k ∉ warnings (buildEmployeeMap rows)) ∧
             App.is_root_candidate (employeeMap (buildEmployeeMap rows)) e = true) ∧
  (∀ rows k row,
      last_record rows k = Some row →
      row_name row = None ∨ row_name row = Some "" →
      ∃ e, node_at (buildEmployeeMap rows) k = Some e ∧ name e = "Unknown").
Proof.
  repeat split.
  - intros rows. unfold buildEmployeeMap. by rewrite node_pass_strip.
  - intros pre row post Hid. apply usable_id_None in Hid.
    unfold buildEmployeeMap, node_pass. rewrite !fold_left_app. simpl.
    by rewrite node_step_unusable.
  - intros rows k row Hr Hm. rewrite employeeMap_build.
    destruct (index_of_last_record _ _ _ Hr) as [l Hg].
    destruct (index_node _ _ _ Hg) as (r' & e & Hr' & He & Hl & _ & Hme & _).
    assert (r' = row) as -> by congruence.
    rewrite (new_employee_no_manager k _ Hm) in Hme.
    exists l, e. repeat split; try done.
    + intros mid Hw. apply warning_inv in Hw as (l2 & e2 & Hg2 & Hl2 & Hm2 & _).
      assert (l2 = l) as -> by congruence. rewrite Hl in Hl2. injection Hl2 as <-.
      rewrite (new_employee_no_manager k _ Hm) in Hm2. done.
    + unfold App.is_root_candidate. by rewrite Hme.
  - intros rows k row Hr Hn.
    destruct (index_of_last_record _ _ _ Hr) as [l Hg].
    destruct (index_node _ _ _ Hg) as (r' & e & Hr' & He & _ & _ & _ & Hne & _).
    assert (r' = row) as -> by congruence.
    exists e. rewrite (node_at_index _ _ _ Hg). split; [done|].
    rewrite Hne. simpl. unfold or. by destruct Hn as [-> | ->].
Qed.

(** *** The properties on sample inputs *)

Lemma unresolved_manager_retained_witness :
  last_record sample_rows "3" = Some orphan_row ∧
  row_managerId orphan_row = Some "99" ∧ "99" ≠ "" ∧
  map_get "99" (employeeMap (buildEmployeeMap sample_rows)) = None ∧
  ∃ l e,
    map_get "3" (employeeMap (buildEmployeeMap sample_rows)) = Some l ∧
    store (buildEmployeeMap sample_rows) !! l = Some e ∧
    id e = "3" ∧ managerId e = Some "99" ∧
    (∀ l' e', store (buildEmployeeMap sample_rows) !! l' = Some e' → l ∉ children e') ∧
    ManagerNotFound "99" "3" ∈ warnings (buildEmployeeMap sample_rows) ∧
    App.is_root_candidate (employeeMap (buildEmployeeMap sample_rows)) e = true.
Proof.
  assert (H1 : last_record sample_rows "3" = Some orphan_row) by (vm_compute; reflexivity).
  assert (H2 : row_managerId orphan_row = Some "99") by (vm_compute; reflexivity).
  assert (H3 : "99" ≠ "") by discriminate.
  assert (H4 : map_get "99" (employeeMap (buildEmployeeMap sample_rows)) = None)
    by (vm_compute; reflexivity).
  split; [exact H1|]. split; [exact H2|]. split; [exact H3|]. split; [exact H4|].
  exact (unresolved_manager_retained sample_rows "3" "99" orphan_row H1 H2 H3 H4).
Defined.


Lemma duplicate_id_last_record_wins_witness :
  last_record duplicate_rows "a" = Some a_second ∧
  let b := buildEmployeeMap duplicate_rows in
  ∃ pre post l e,
    duplicate_rows = pre ++ a_second :: post ∧ usable_id a_second = Some "a" ∧
    ("a" ∉ input_ids post) ∧
    NoDup (map_keys (employeeMap b)) ∧
    map_get "a" (employeeMap b) = Some l ∧
    (∀ k', map_get k' (employeeMap b) = Some l → k' = "a") ∧
    l = length (input_ids pre) ∧
    (node_pass duplicate_rows).1 !! l = Some (new_employee "a" a_second) ∧
    children (new_employee "a" a_second) = [] ∧
    store b !! l = Some e ∧
    id e = "a" ∧
    managerId e = managerId (new_employee "a" a_second) ∧
    name e = name (new_employee "a" a_second) ∧
    (∀ c, c ∈ children e → ∃ ec, store b !! c = Some ec ∧ managerId ec = Some "a") ∧
    (∀ l' e', store b !! l' = Some e' → id e' = "a" → l' ≠ l →
              children e' = [] ∧ ¬ is_child b l') ∧
    map_keys (employeeMap b) = first_occurrences (input_ids duplicate_rows) ∧
    (∀ km lm em,
        map_get km (employeeMap b) = Some lm → store b !! lm = Some em →
        child_ids b em =
        filter (λ k', manager_key b k' = Some km)
               (first_occurrences (input_ids duplicate_rows))).
Proof.
  assert (H1 : last_record duplicate_rows "a" = Some a_second) by (vm_compute; reflexivity).
  split; [exact H1|].
  exact (duplicate_id_last_record_wins duplicate_rows "a" a_second H1).
Defined.

Lemma children_exclusive_in_first_occurrence_order_witness :
  let b := buildEmployeeMap sample_rows in
  map_get "2" (employeeMap b) = Some 1 ∧ store b !! 1 = Some child_node ∧
  managerId child_node = Some "1" ∧ map_get "1" (employeeMap b) = Some 0 ∧
  store b !! 0 = Some root_node ∧ 1 ∈ children root_node ∧
  (∃ em, store b !! 0 = Some em ∧ 1 ∈ children em ∧ NoDup (children em) ∧
         ∀ l' e', store b !! l' = Some e' → 1 ∈ children e' → l' = 0) ∧
  (∃ ec, store b !! 1 = Some ec ∧ managerId ec = Some (id root_node) ∧
         map_get (id ec) (employeeMap b) = Some 1) ∧
  child_ids b root_node =
  filter (λ k, manager_key b k = Some "1") (first_occurrences (input_ids sample_rows)).
Proof.
  cbv zeta.
  assert (H1 : map_get "2" (employeeMap (buildEmployeeMap sample_rows)) = Some 1)
    by (vm_compute; reflexivity).
  assert (H2 : store (buildEmployeeMap sample_rows) !! 1 = Some child_node)
    by (vm_compute; reflexivity).
  assert (H3 : managerId child_node = Some "1") by reflexivity.
  assert (H4 : map_get "1" (employeeMap (buildEmployeeMap sample_rows)) = Some 0)
    by (vm_compute; reflexivity).
  assert (H5 : store (buildEmployeeMap sample_rows) !! 0 = Some root_node)
    by (vm_compute; reflexivity).
  assert (H6 : 1 ∈ children root_node) by (vm_compute; left).
  destruct (children_exclusive_in_first_occurrence_order sample_rows) as (P1 & P2 & P3).
  split; [exact H1|]. split; [exact H2|]. split; [exact H3|]. split; [exact H4|].
  split; [exact H5|]. split; [exact H6|].
  split; [exact (P1 "2" 1 child_node "1" 0 H1 H2 H3 H4)|].
  split; [exact (P2 0 root_node 1 H5 H6)|].
  exact (P3 "1" 0 root_node H4 H5).
Defined.

(** C5, as stated, fails on the order of siblings: with two managers, [a]
    under the first, [c] under the second and a later record that moves [a]
    under the second, the children of the second manager are [a], [c],
    although the record that puts [a] there follows the record of [c]. *)
Lemma sibling_order_counterexample :
  let b := buildEmployeeMap moved_rows in
  (child_ids b <$> node_at b "m2") = Some ["a"; "c"] ∧
  manager_key b "a" = Some "m2" ∧
  last_record moved_rows "a" = Some a_under_m2 ∧
  last_index moved_rows "a" = Some 4 ∧
  last_index moved_rows "c" = Some 3.
Proof. cbv zeta. repeat split; vm_compute; reflexivity. Qed.

(** C1, as stated, fails: no list of the nodes with an unresolved manager
    is returned.  Of two such nodes the upload makes the first the root;
    the second is in the index and nowhere else in the state. *)
Lemma unresolved_nodes_not_listed_counterexample :
  let b := buildEmployeeMap two_orphans in
  map_get "4" (employeeMap b) = Some 1 ∧
  (managerId <$> store b !! 1) = Some (Some "98") ∧
  map_get "98" (employeeMap b) = None ∧
  App.defaultRoot b = Some 0 ∧
  App.handleUpload App.initial two_orphans =
    {| App.heap := store b; App.employeeMap := Some (employeeMap b);
       App.viewRoot := Some 0; App.isLoading := false; App.uploadError := None |} ∧
  App.viewRoot (App.handleUpload App.initial two_orphans) ≠ Some 1.
Proof.
  cbv zeta. split; [vm_compute; reflexivity|]. split; [vm_compute; reflexivity|].
  split; [vm_compute; reflexivity|]. split; [vm_compute; reflexivity|].
  split; [vm_compute; reflexivity|].
  intros H. vm_compute in H. discriminate H.
Qed.

(** C2, as stated, fails: with a manager and the records a, b, a the index
    iterates m, a, b and the manager's children are a, b, the repeated id
    staying at the place of its first record although its name is that of
    the last; the places of the last occurrences would be m, b, a. *)
Lemma duplicate_id_position_counterexample :
  let b := buildEmployeeMap duplicate_rows in
  map_keys (employeeMap b) = ["m"; "a"; "b"] ∧
  (name <$> node_at b "a") = Some "Y" ∧
  (child_ids b <$> node_at b "m") = Some ["a"; "b"] ∧
  last_occurrences (input_ids duplicate_rows) = ["m"; "b"; "a"] ∧
  map_keys (employeeMap b) ≠ last_occurrences (input_ids duplicate_rows).
Proof.
  cbv zeta. split; [vm_compute; reflexivity|]. split; [vm_compute; reflexivity|].
  split; [vm_compute; reflexivity|]. split; [vm_compute; reflexivity|].
  intros H. vm_compute in H. discriminate H.
Qed.

End BuildSpec.

(** * Properties of the upload handler and of navigation *)

Module AppSpec.
Import Js JsFacts MapFacts DataProcessing Notions NodePass LinkPass BuildFacts.
Import Examples Examples2 Examples3.
Import App.

Lemma length_eqb_0 {A} (l : list A) : (length l =? 0)%nat = true ↔ l = [].
Proof. destruct l; simpl; split; done. Qed.

Lemma empty_index_iff rows :
  DataProcessing.employeeMap (buildEmployeeMap rows) = [] ↔ input_ids rows = [].
Proof.
  rewrite employeeMap_build.
  pose proof (ni_keys _ _ _ (node_pass_inv rows)) as Hk.
  split; intros H.
  - rewrite H in Hk. simpl in Hk.
    destruct (input_ids rows) as [|i ids]; [done|]. discriminate Hk.
  - rewrite H in Hk. simpl in Hk. unfold map_keys in Hk.
    by apply fmap_nil_inv in Hk.
Qed.

(** C3, as the code has it: the upload fails, with the error message set
    and the index and the root left as they were, exactly when there is no
    record at all.  With records of which none yields a usable identifier
    there is no error: the index is produced and is empty, and no root is
    selected. *)
Theorem upload_fails_exactly_on_no_record (st : State) (rawData : list RawCsvRow) :
  (uploadError (handleUpload st rawData) ≠ None ↔ rawData = []) ∧
  (rawData = [] →
     employeeMap (handleUpload st rawData) = employeeMap st ∧
     viewRoot (handleUpload st rawData) = viewRoot st ∧
     heap (handleUpload st rawData) = heap st) ∧
  (rawData ≠ [] →
     employeeMap (handleUpload st rawData)
       = Some (DataProcessing.employeeMap (buildEmployeeMap rawData)) ∧
     heap (handleUpload st rawData) = store (buildEmployeeMap rawData) ∧
     (input_ids rawData = [] →
        employeeMap (handleUpload st rawData) = Some [] ∧
        viewRoot (handleUpload st rawData) = None)).
Proof.
  unfold handleUpload. destruct (length rawData =? 0)%nat eqn:E; simpl.
  - apply length_eqb_0 in E.
    split; [split; [done|intros _; done]|].
    split; [done|]. intros H. by destruct H.
  - assert (Hne : rawData ≠ []) by (intros ->; discriminate E).
    split; [split; [intros H; by destruct H|done]|].
    split; [done|]. intros _. split; [done|]. split; [done|].
    intros Hids. apply empty_index_iff in Hids.
    unfold defaultRoot. by rewrite Hids.
Qed.

(** *** Navigation *)

Lemma built_heap_managers rows :
  Forall (λ e, managerId e ≠ Some "") (store (buildEmployeeMap rows)).
Proof.
  apply Forall_lookup. intros l e He.
  by destruct (store_object _ _ _ He) as (_ & _ & _ & _ & _ & _ & ?).
Qed.

Lemma reachable_heap st : reachable st → Forall (λ e, managerId e ≠ Some "") (heap st).
Proof.
  induction 1 as [|st rawData _ IH|st k emp m _ IH _ _|st _ IH|st _ IH]; simpl; try done.
  - unfold handleUpload. destruct (length rawData =? 0)%nat; simpl; [done|].
    apply built_heap_managers.
  - assert (Hh : heap (goUp st) = heap st); [|by rewrite Hh].
    unfold goUp. destruct (viewRoot st), (employeeMap st); try done.
    destruct (heap st !! _) as [e|]; [|done].
    destruct (truthy (managerId e)); [|done].
    destruct (managerId e) as [mid|]; [|done]. by destruct (map_get mid _).
Qed.

(** C6, as the code has it: [goUp] makes the manager node the root (the
    very reference the index holds under the root's [managerId]) when the
    root has a manager reference that resolves in the index, and otherwise
    leaves the state as it is.  It returns [undefined] on every path: no
    status tells the two cases apart. *)
Theorem goUp_moves_to_resolved_manager (st : State) :
  reachable st →
  (∀ root employee mid m manager,
      viewRoot st = Some root → heap st !! root = Some employee →
      managerId employee = Some mid →
      employeeMap st = Some m → map_get mid m = Some manager →
      goUp st = setViewRoot (map_get mid m) st ∧
      viewRoot (goUp st) = Some manager) ∧
  ((¬ ∃ root employee mid m manager,
        viewRoot st = Some root ∧ heap st !! root = Some employee ∧
        managerId employee = Some mid ∧
        employeeMap st = Some m ∧ map_get mid m = Some manager) →
   goUp st = st) ∧
  AppReturn.goUp_returns st = AppReturn.undefined.
Proof.
  intros Hreach. split; [|split].
  - intros root e mid m manager Hroot He Hm Hmap Hg.
    pose proof (Forall_lookup_1 _ _ _ _ (reachable_heap _ Hreach) He) as Hne.
    cbn beta in Hne.
    unfold goUp. rewrite Hroot, Hmap, He, Hm, Hg.
    rewrite (proj2 (truthy_Some mid)); [done|]. intros ->. by rewrite Hm in Hne.
  - intros Hno. unfold goUp.
    destruct (viewRoot st) as [root|] eqn:Hroot; [|done].
    destruct (employeeMap st) as [m|] eqn:Hmap; [|done].
    destruct (heap st !! root) as [e|] eqn:He; [|done].
    destruct (truthy (managerId e)); [|done].
    destruct (managerId e) as [mid|] eqn:Hm; [|done].
    destruct (map_get mid m) as [manager|] eqn:Hg; [|done].
    destruct Hno. by exists root, e, mid, m, manager.
  - by destruct (AppReturn.goUp_returns st).
Qed.

(** *** The properties on sample inputs *)

(** C3, as stated, fails: a record without identifier column is uploaded
    without error, and an empty index is produced. *)
Lemma upload_without_identifier_counterexample :
  input_ids [no_id_row] = [] ∧
  uploadError (handleUpload initial [no_id_row]) = None ∧
  employeeMap (handleUpload initial [no_id_row]) = Some [] ∧
  viewRoot (handleUpload initial [no_id_row]) = None.
Proof. repeat split; vm_compute; reflexivity. Qed.

Lemma goUp_moves_to_resolved_manager_witness :
  reachable child_selected ∧
  goUp child_selected = setViewRoot (map_get "1" [("1", 0); ("2", 1); ("3", 2)]) child_selected ∧
  viewRoot (goUp child_selected) = Some 0 ∧
  AppReturn.goUp_returns child_selected = AppReturn.undefined.
Proof.
  assert (H : reachable child_selected).
  { apply (reach_select _ "2" 1 [("1", 0); ("2", 1); ("3", 2)]).
    - apply reach_upload, reach_initial.
    - vm_compute. reflexivity.
    - vm_compute. reflexivity. }
  assert (H1 : viewRoot child_selected = Some 1) by reflexivity.
  assert (H2 : heap child_selected !! 1 = Some child_node) by (vm_compute; reflexivity).
  assert (H3 : managerId child_node = Some "1") by reflexivity.
  assert (H4 : employeeMap child_selected = Some [("1", 0); ("2", 1); ("3", 2)])
    by (vm_compute; reflexivity).
  assert (H5 : map_get "1" [("1", 0); ("2", 1); ("3", 2)] = Some 0) by reflexivity.
  destruct (goUp_moves_to_resolved_manager child_selected H) as (Hmove & _ & Hret).
  destruct (Hmove 1 child_node "1" _ 0 H1 H2 H3 H4 H5) as (Hgo & Hroot).
  split; [exact H|]. split; [exact Hgo|]. split; [exact Hroot|exact Hret].
Defined.

(** C6, as stated, fails on the status: at the root of the sample records
    [goUp] changes nothing, at the child it moves the root, and it returns
    the same value in both cases. *)
Lemma goUp_returns_no_status_counterexample :
  goUp uploaded = uploaded ∧
  goUp child_selected ≠ child_selected ∧
  viewRoot (goUp child_selected) = Some 0 ∧
  AppReturn.goUp_returns uploaded = AppReturn.goUp_returns child_selected.
Proof.
  split; [vm_compute; reflexivity|]. split; [|split; vm_compute; reflexivity].
  intros H. apply (f_equal viewRoot) in H. vm_compute in H. discriminate H.
Qed.

End AppSpec.

(** * Properties of the search *)

Module SearchSpec.
Import Js JsFacts MapFacts DataProcessing Notions Examples.

Lemma search_fold h field q (m : Map loc) (acc : list loc) :
  fold_left
    (λ results entry,
       match h !! entry.2 with
       | Some employee =>
           if field_matches q field employee then results ++ [entry.2] else results
       | None => results
       end) m acc
  = acc ++ filter (λ l, hit h q field l = true) (map_values m).
Proof.
  unfold map_values. revert acc. induction m as [|[k l] m IH]; intros acc.
  - simpl. by rewrite app_nil_r.
  - rewrite fmap_cons, filter_cons. cbn [fold_left snd]. rewrite IH.
    assert (Hh : hit h q field l =
                 match h !! l with
                 | Some e => field_matches q field e
                 | None => false
                 end) by reflexivity.
    destruct (h !! l) as [e|].
    + destruct (field_matches q field e).
      * rewrite decide_True by done. by rewrite <- app_assoc.
      * rewrite decide_False; [done|]. by rewrite Hh.
    + rewrite decide_False; [done|]. by rewrite Hh.
Qed.

Lemma field_matches_spec q field e :
  field_matches (toLowerCase q) field e = true ↔
  ∃ v, field_value field e = Some v ∧ ci_contains v q.
Proof.
  destruct field; simpl.
  - rewrite includes_ci. split; [intros H; by eexists|by intros (v & [= <-] & H)].
  - rewrite includes_ci. split; [intros H; by eexists|by intros (v & [= <-] & H)].
  - unfold absent_if_empty. destruct (managerId e) as [mid|]; simpl.
    + destruct (negb (mid =? "")); simpl.
      * rewrite includes_ci. split; [intros H; by eexists|by intros (v & [= <-] & H)].
      * split; [done|]. by intros (v & [=] & _).
    + split; [done|]. by intros (v & [=] & _).
Qed.

Lemma hit_spec h q field l :
  hit h (toLowerCase q) field l = true ↔ matches h field q l.
Proof.
  unfold hit, matches. destruct (h !! l) as [e|].
  - rewrite field_matches_spec. split.
    + intros (v & ? & ?). by exists e, v.
    + intros (e' & v & [= <-] & ? & ?). by exists v.
  - split; [done|]. by intros (e' & v & [=] & _).
Qed.

Lemma blank_query query :
  truthy (Some (trim (toLowerCase query))) = negb (whitespace_only query).
Proof.
  simpl. f_equal. rewrite <- (whitespace_only_toLowerCase query).
  destruct (whitespace_only (toLowerCase query)) eqn:E.
  - apply trim_empty in E. by rewrite E.
  - apply String.eqb_neq. intros H. apply trim_empty in H. congruence.
Qed.

(** *** Over any string methods *)

Section methods.
Variable lower : string → string.
Variable strip : string → string.
Variable has : string → string → bool.

Lemma search_fold_with h field q (m : Map loc) (acc : list loc) :
  fold_left
    (λ results entry,
       match h !! entry.2 with
       | Some employee =>
           if SearchAny.field_matches_with lower has q field employee
           then results ++ [entry.2] else results
       | None => results
       end) m acc
  = acc ++ filter (λ l, SearchAny.hit_with lower has h q field l = true) (map_values m).
Proof.
  unfold map_values. revert acc. induction m as [|[k l] m IH]; intros acc.
  - simpl. by rewrite app_nil_r.
  - rewrite fmap_cons, filter_cons. cbn [fold_left snd]. rewrite IH.
    assert (Hh : SearchAny.hit_with lower has h q field l =
                 match h !! l with
                 | Some e => SearchAny.field_matches_with lower has q field e
                 | None => false
                 end) by reflexivity.
    destruct (h !! l) as [e|].
    + destruct (SearchAny.field_matches_with lower has q field e).
      * rewrite decide_True by done. by rewrite <- app_assoc.
      * rewrite decide_False; [done|]. by rewrite Hh.
    + rewrite decide_False; [done|]. by rewrite Hh.
Qed.

Lemma field_matches_with_spec q field e :
  SearchAny.field_matches_with lower has q field e = true ↔
  ∃ v, field_value field e = Some v ∧ has (lower v) q = true.
Proof.
  destruct field; simpl.
  - split; [intros H; by eexists|by intros (v & [= <-] & H)].
  - split; [intros H; by eexists|by intros (v & [= <-] & H)].
  - unfold absent_if_empty. destruct (managerId e) as [mid|]; simpl.
    + destruct (negb (mid =? "")); simpl.
      * split; [intros H; by eexists|by intros (v & [= <-] & H)].
      * split; [done|]. by intros (v & [=] & _).
    + split; [done|]. by intros (v & [=] & _).
Qed.

Lemma hit_with_spec h q field l :
  SearchAny.hit_with lower has h q field l = true ↔
  ∃ e v, h !! l = Some e ∧ field_value field e = Some v ∧ has (lower v) q = true.
Proof.
  unfold SearchAny.hit_with. destruct (h !! l) as [e|].
  - rewrite field_matches_with_spec. split.
    + intros (v & ? & ?). by exists e, v.
    + intros (e' & v & [= <-] & ? & ?). by exists v.
  - split; [done|]. by intros (e' & v & [=] & _).
Qed.

End methods.

(** C4, as the code has it.  Whatever [toLowerCase], [trim] and [includes]
    do: when the lower-cased and then trimmed query is empty the search
    returns nothing; otherwise it returns, in the iteration order of the
    index, the nodes that have the searched field (a node without manager
    reference has no [managerId]) and whose lower-cased value includes the
    lower-cased and trimmed query.  On strings of code units below U+0100
    this means: nothing for a query that is empty or white space only, and
    otherwise the nodes whose value contains the query, stripped of leading
    and trailing white space, up to letter case. *)
Theorem search_contains_lowercased_trimmed_query
    (lower strip : string → string) (has : string → string → bool)
    (h : Heap) (m : Map loc) (query : string) (field : SearchField) :
  let queryLower := strip (lower query) in
  (queryLower = "" → SearchAny.searchEmployees_with lower strip has h m query field = []) ∧
  (queryLower ≠ "" →
     SearchAny.searchEmployees_with lower strip has h m query field =
     filter (λ l, SearchAny.hit_with lower has h queryLower field l = true) (map_values m)) ∧
  (∀ l, SearchAny.hit_with lower has h queryLower field l = true ↔
        ∃ e v, h !! l = Some e ∧ field_value field e = Some v ∧
               has (lower v) queryLower = true) ∧
  searchEmployees h m query field =
    SearchAny.searchEmployees_with toLowerCase trim includes h m query field ∧
  (trim (toLowerCase query) = "" ↔ whitespace_only query = true) ∧
  (∀ l, SearchAny.hit_with toLowerCase includes h (trim (toLowerCase query)) field l = true ↔
        matches h field (trim query) l) ∧
  (whitespace_only query = false →
     ∀ l, l ∈ searchEmployees h m query field ↔
          l ∈ map_values m ∧ matches h field (trim query) l).
Proof.
  intros queryLower.
  assert (Hhit : ∀ l, hit h (trim (toLowerCase query)) field l = true ↔
                      matches h field (trim query) l).
  { intros l. rewrite trim_toLowerCase. apply hit_spec. }
  split; [|split; [|split; [|split; [|split; [|split]]]]].
  - intros Hq. unfold SearchAny.searchEmployees_with. fold queryLower. by rewrite Hq.
  - intros Hq. unfold SearchAny.searchEmployees_with. fold queryLower.
    rewrite (proj2 (truthy_Some queryLower) Hq). by rewrite search_fold_with.
  - intros l. apply hit_with_spec.
  - reflexivity.
  - rewrite <- (whitespace_only_toLowerCase query). apply trim_empty.
  - exact Hhit.
  - intros Hq l. unfold searchEmployees. rewrite blank_query, Hq. cbn [negb].
    rewrite search_fold, app_nil_l, list_elem_of_filter, Hhit. tauto.
Qed.

(** *** The property on a sample input *)

(** C4, as stated, fails: the query ["child "], with a space at its end, finds
    the node named ["Child"], whose name does not contain the query. *)
Lemma search_trailing_space_counterexample :
  let b := buildEmployeeMap sample_rows in
  searchEmployees (store b) (employeeMap b) "child " FieldName = [1] ∧
  (name <$> store b !! 1) = Some "Child" ∧
  ¬ matches (store b) FieldName "child " 1.
Proof.
  cbv zeta. split; [vm_compute; reflexivity|]. split; [vm_compute; reflexivity|].
  intros (e & v & He & Hv & Hc).
  vm_compute in He. injection He as <-. injection Hv as <-.
  apply includes_ci in Hc. vm_compute in Hc. discriminate Hc.
Qed.

Lemma search_contains_lowercased_trimmed_query_witness :
  let b := buildEmployeeMap sample_rows in
  trim (toLowerCase "child ") ≠ "" ∧
  whitespace_only "child " = false ∧
  SearchAny.searchEmployees_with toLowerCase trim includes
    (store b) (employeeMap b) "child " FieldName =
  filter (λ l, SearchAny.hit_with toLowerCase includes (store b)
                 (trim (toLowerCase "child ")) FieldName l = true)
         (map_values (employeeMap b)) ∧
  (∀ l, l ∈ searchEmployees (store b) (employeeMap b) "child " FieldName ↔
        l ∈ map_values (employeeMap b) ∧ matches (store b) FieldName (trim "child ") l).
Proof.
  cbv zeta.
  assert (H1 : trim (toLowerCase "child ") ≠ "") by (vm_compute; discriminate).
  assert (H2 : whitespace_only "child " = false) by (vm_compute; reflexivity).
  destruct (search_contains_lowercased_trimmed_query toLowerCase trim includes
              (store (buildEmployeeMap sample_rows))
              (employeeMap (buildEmployeeMap sample_rows)) "child " FieldName)
    as (_ & Hfilter & _ & _ & _ & _ & Hmem).
  split; [exact H1|]. split; [exact H2|]. split; [exact (Hfilter H1)|exact (Hmem H2)].
Defined.

End SearchSpec.

(** * Properties of the fit-to-screen transform *)

Module ChartSpec.
Import OrgChart Notions Examples Examples5.
Local Open Scope Q_scope.

Lemma below_Fin v q : below v (Fin q) = true ↔ v < q.
Proof.
  simpl. destruct (Qle_bool q v) eqn:E; simpl.
  - apply Qle_bool_iff in E. split; [done|]. intros H. lra.
  - split; [intros _|done]. apply Qnot_le_lt. intros H.
    apply Qle_bool_iff in H. congruence.
Qed.

Lemma above_Fin v q : above v (Fin q) = true ↔ q < v.
Proof.
  simpl. destruct (Qle_bool v q) eqn:E; simpl.
  - apply Qle_bool_iff in E. split; [done|]. intros H. lra.
  - split; [intros _|done]. apply Qnot_le_lt. intros H.
    apply Qle_bool_iff in H. congruence.
Qed.

Lemma half_width : 260 / 2 == 130.
Proof. reflexivity. Qed.

Lemma bounds_step_finite acc d : finite_bounds acc → finite_bounds (bounds_step acc d).
Proof.
  intros (a & b & c & e & -> & Hab & Hce). unfold bounds_step. cbn [minX maxX minY maxY].
  destruct (below (x d) (Fin a)) eqn:E1; destruct (above (x d) (Fin b)) eqn:E2;
  destruct (below (y d) (Fin c)) eqn:E3; destruct (above (y d) (Fin e)) eqn:E4;
  try apply below_Fin in E1; try apply above_Fin in E2;
  try apply below_Fin in E3; try apply above_Fin in E4;
  (eexists _, _, _, _; split; [reflexivity|split; lra]).
Qed.

Lemma fold_bounds_finite nodes acc :
  finite_bounds acc → finite_bounds (fold_left bounds_step nodes acc).
Proof.
  revert acc. induction nodes as [|d nodes IH]; intros acc H; [done|].
  simpl. by apply IH, bounds_step_finite.
Qed.

Lemma bounds_finite nodes : nodes ≠ [] → finite_bounds (bounds nodes).
Proof.
  destruct nodes as [|d nodes]; [done|]. intros _. unfold bounds. simpl.
  apply fold_bounds_finite. exists (x d), (x d), (y d), (y d).
  split; [done|split; lra].
Qed.

Lemma boundingBox_nonempty nodes :
  nodes ≠ [] →
  ∃ box, boundingBox nodes = Some box ∧ CARD_WIDTH <= width box ∧ CARD_HEIGHT <= height box.
Proof.
  intros Hne. destruct (bounds_finite nodes Hne) as (a & b & c & d & Hb & Hab & Hcd).
  unfold boundingBox. rewrite Hb. eexists. split; [reflexivity|].
  unfold width, height, CARD_WIDTH, CARD_HEIGHT. cbn [left right top bottom].
  rewrite half_width. split; lra.
Qed.

Lemma div_defined a b : ¬ b == 0 → div a b = Some (a / b).
Proof.
  intros Hb. unfold div. destruct (Qeq_bool b 0) eqn:E; [|done].
  apply Qeq_bool_iff in E. done.
Qed.

Lemma clamp_range s : 0.2 <= Qmin (Qmax s 0.2) 1 ∧ Qmin (Qmax s 0.2) 1 <= 1.
Proof.
  split; [|apply Q.le_min_r].
  apply Q.min_glb; [apply Q.le_max_r|lra].
Qed.

Lemma fitToScreen_defined nodes svgWidth svgHeight box :
  boundingBox nodes = Some box →
  CARD_WIDTH <= width box → CARD_HEIGHT <= height box →
  ∃ t, fitToScreen nodes svgWidth svgHeight = Some t ∧
       0.2 <= k t ∧ k t <= 1 ∧
       tx t = svgWidth / 2 - centerX box * k t ∧
       ty t = svgHeight / 2 - centerY box * k t - (height box * k t / 2) + 50.
Proof.
  intros Hbox Hw Hh. unfold fitToScreen. rewrite Hbox.
  unfold CARD_WIDTH in Hw. unfold CARD_HEIGHT in Hh.
  rewrite !div_defined by (intros H0; rewrite H0 in *; lra).
  eexists. split; [reflexivity|]. cbn [k tx ty].
  split; [apply clamp_range|]. split; [apply clamp_range|]. done.
Qed.

(** C7: with one visible node the loop leaves a box of zero width and
    height, which the card dimensions widen to 260 by 100 before any
    division; both divisions are defined, and the scale of the transform
    lies between 0.2 and 1. *)
Theorem single_node_fit_is_clamped (p : Point) (svgWidth svgHeight : Q) :
  bounds [p] = {| minX := Fin (x p); maxX := Fin (x p);
                  minY := Fin (y p); maxY := Fin (y p) |} ∧
  ∃ box t,
    boundingBox [p] = Some box ∧
    width box == CARD_WIDTH ∧ height box == CARD_HEIGHT ∧
    div (svgWidth - padding) (width box) = Some ((svgWidth - padding) / width box) ∧
    div (svgHeight - padding) (height box) = Some ((svgHeight - padding) / height box) ∧
    fitToScreen [p] svgWidth svgHeight = Some t ∧
    0.2 <= k t ∧ k t <= 1.
Proof.
  split; [reflexivity|].
  eexists. 
  assert (Hbox : boundingBox [p] =
            Some {| left := x p - CARD_WIDTH / 2; right := x p + CARD_WIDTH / 2;
                    top := y p; bottom := y p + CARD_HEIGHT |}) by reflexivity.
  assert (Hw : width {| left := x p - CARD_WIDTH / 2; right := x p + CARD_WIDTH / 2;
                        top := y p; bottom := y p + CARD_HEIGHT |} == CARD_WIDTH).
  { unfold width, CARD_WIDTH. cbn [left right]. field. }
  assert (Hh : height {| left := x p - CARD_WIDTH / 2; right := x p + CARD_WIDTH / 2;
                         top := y p; bottom := y p + CARD_HEIGHT |} == CARD_HEIGHT).
  { unfold height, CARD_HEIGHT. cbn [top bottom]. ring. }
  destruct (fitToScreen_defined [p] svgWidth svgHeight _ Hbox) as (t & Ht & Hlo & Hhi & _).
  { rewrite Hw. lra. }
  { rewrite Hh. lra. }
  exists t. split; [exact Hbox|]. split; [exact Hw|]. split; [exact Hh|].
  split; [apply div_defined; rewrite Hw; unfold CARD_WIDTH; lra|].
  split; [apply div_defined; rewrite Hh; unfold CARD_HEIGHT; lra|].
  done.
Qed.

(** C8: the code breaks the claim.  In a viewport of 1000 by 1000, at scale
    1, the centre of a one-node chart goes to the exact vertical middle,
    with no bias at all, while a chain of three nodes gets [ty = -30]: its
    centre goes 240 above the middle and the top of its root card 30 above
    the top of the viewport.  Horizontally both centres go to the middle.
    No fixed vertical bias accounts for both. *)
Theorem vertical_offset_varies_with_height :
  (∃ box t,
     boundingBox one_node = Some box ∧ fitToScreen one_node 1000 1000 = Some t ∧
     k t == 1 ∧ tx t == 500 ∧ ty t == 450 ∧
     applyX t (centerX box) == 1000 / 2 ∧
     applyY t (centerY box) == 1000 / 2) ∧
  (∃ box t,
     boundingBox chain_of_three = Some box ∧
     fitToScreen chain_of_three 1000 1000 = Some t ∧
     k t == 1 ∧ tx t == 500 ∧ ty t == -30 ∧
     applyX t (centerX box) == 1000 / 2 ∧
     applyY t (centerY box) == 1000 / 2 - 240 ∧
     applyY t (top box) == -30) ∧
  ¬ ∃ bias : Q,
      ∀ nodes svgWidth svgHeight box t,
        boundingBox nodes = Some box →
        fitToScreen nodes svgWidth svgHeight = Some t →
        applyY t (centerY box) == svgHeight / 2 + bias.
Proof.
  split; [|split].
  - eexists _, _. split; [reflexivity|]. split; [reflexivity|].
    repeat split; vm_compute; reflexivity.
  - eexists _, _. split; [reflexivity|]. split; [reflexivity|].
    repeat split; vm_compute; reflexivity.
  - intros [bias Hb].
    pose proof (Hb one_node 1000 1000 _ _ eq_refl eq_refl) as H1.
    pose proof (Hb chain_of_three 1000 1000 _ _ eq_refl eq_refl) as H2.
    assert (E : ∀ u v : Q, u == 1000 / 2 + bias → v == 1000 / 2 + bias → u - v == 0).
    { intros u v -> ->. ring. }
    specialize (E _ _ H1 H2). vm_compute in E. discriminate E.
Qed.

End ChartSpec.

(** * Further properties of the builder *)

Module BuildMore.
Import Js JsFacts MapFacts DataProcessing Notions Notions2 NodePass LinkPass BuildFacts.
Import Examples Examples2.

Lemma node_pass_heap_length rows : length (node_pass rows).1 = length (input_ids rows).
Proof.
  induction rows as [|row rows IH] using rev_ind; [done|].
  rewrite node_pass_snoc, node_step_usable, input_ids_snoc, length_app.
  destruct (usable_id row); simpl; [|lia].
  rewrite length_app. simpl. lia.
Qed.

Lemma length_first_occurrences l : (length (first_occurrences l) ≤ length l)%nat.
Proof.
  induction l as [|x l IH]; [done|]. rewrite first_occurrences_cons. simpl.
  pose proof (length_filter (λ y, y ≠ x) (first_occurrences l)). lia.
Qed.

Lemma length_input_ids rows : (length (input_ids rows) ≤ length rows)%nat.
Proof.
  unfold input_ids. induction rows as [|row rows IH]; [done|].
  rewrite BuildSpec.omap_cons. destruct (usable_id row); simpl; lia.
Qed.

Lemma node_at_Some rows k e :
  node_at (buildEmployeeMap rows) k = Some e ↔
  ∃ l, map_get k (node_pass rows).2 = Some l ∧ store (buildEmployeeMap rows) !! l = Some e.
Proof.
  unfold node_at. rewrite employeeMap_build.
  destruct (map_get k (node_pass rows).2) as [l|]; simpl.
  - split; [intros H; by exists l|by intros (l' & [= <-] & H)].
  - split; [done|by intros (l' & [=] & _)].
Qed.

(** X1: the index holds a node for exactly the identifiers that some record
    yields; the node found under a key carries that key as its id, and the
    key is not empty.  One object is created per record with an
    identifier, and the index is never larger than that.  When no
    identifier occurs twice, the index iterates in the order of the
    records. *)
Theorem index_holds_exactly_the_usable_ids (rows : list RawCsvRow) :
  let b := buildEmployeeMap rows in
  (∀ k, is_Some (node_at b k) ↔ ∃ row, row ∈ rows ∧ usable_id row = Some k) ∧
  (∀ k e, node_at b k = Some e → id e = k ∧ k ≠ "") ∧
  length (store b) = length (input_ids rows) ∧
  (length (employeeMap b) ≤ length (input_ids rows))%nat ∧
  (length (input_ids rows) ≤ length rows)%nat ∧
  (NoDup (input_ids rows) → map_keys (employeeMap b) = input_ids rows).
Proof.
  intros b. unfold b. split; [|split; [|split; [|split; [|split]]]]; cycle 5.
  { intros Hnd. rewrite employeeMap_build, (ni_keys _ _ _ (node_pass_inv rows)).
    by apply first_occurrences_NoDup. }
  - intros k. transitivity (k ∈ input_ids rows).
    + rewrite <- index_has. split.
      * intros [e He]. apply node_at_Some in He as (l & Hl & _). by exists l.
      * intros [l Hl]. destruct (index_node _ _ _ Hl) as (r & e & _ & He & _).
        exists e. apply node_at_Some. by exists l.
    + unfold input_ids. by rewrite list_elem_of_omap.
  - intros k e He. apply node_at_Some in He as (l & Hl & He).
    destruct (index_node _ _ _ Hl) as (r & e' & Hr & He' & _ & Hid & _).
    assert (e' = e) as -> by congruence. split; [done|].
    apply last_record_Some in Hr as [Hu _]. by apply usable_id_Some in Hu as [_ ?].
  - rewrite build_eq. simpl. rewrite length_imap. apply node_pass_heap_length.
  - rewrite employeeMap_build.
    pose proof (ni_keys _ _ _ (node_pass_inv rows)) as Hk. unfold map_keys in Hk.
    rewrite <- (length_fmap fst), Hk. apply length_first_occurrences.
  - apply length_input_ids.
Qed.

(** *** Warnings *)

Lemma warning_ids_sublist rows (es : list (string * loc)) :
  Forall (λ entry, map_get entry.1 (node_pass rows).2 = Some entry.2) es →
  warned_id <$> omap (warning_of (node_pass rows).1 (node_pass rows).2) es
    `sublist_of` es.*1.
Proof.
  induction 1 as [|[k l] es Hk _ IH]; [done|]. cbn [fst snd] in Hk.
  rewrite BuildSpec.omap_cons, fmap_cons. cbn [fst].
  destruct (ni_some _ _ _ (node_pass_inv rows) _ _ Hk) as (r & _ & Hl).
  assert (Hid : id (new_employee k r) = k) by done.
  remember (new_employee k r) as e0 eqn:He0. clear He0.
  unfold warning_of. cbn [snd]. rewrite Hl.
  destruct (managerId e0) as [mid|]; [|by apply sublist_cons].
  destruct (truthy (Some mid)); [|by apply sublist_cons].
  destruct (map_get mid (node_pass rows).2); [by apply sublist_cons|].
  rewrite fmap_cons. cbn [warned_id]. rewrite Hid. by apply sublist_skip.
Qed.

Lemma index_entries rows :
  Forall (λ entry, map_get entry.1 (node_pass rows).2 = Some entry.2) (node_pass rows).2.
Proof.
  apply Forall_forall. intros [k l] Hin. apply elem_map_get; [apply keys_NoDup|done].
Qed.

(** X2: a warning is written for exactly the nodes of the index whose manager
    reference is set and resolves to no node; the warnings come in the
    iteration order of the index, one per node at most. *)
Theorem warnings_name_exactly_the_unresolved (rows : list RawCsvRow) :
  let b := buildEmployeeMap rows in
  (∀ mid k, ManagerNotFound mid k ∈ warnings b ↔
            ∃ e, node_at b k = Some e ∧ managerId e = Some mid ∧
                 map_get mid (employeeMap b) = None) ∧
  warned_id <$> warnings b `sublist_of` map_keys (employeeMap b) ∧
  NoDup (warnings b).
Proof.
  intros b. unfold b.
  assert (Hsub : warned_id <$> warnings (buildEmployeeMap rows)
                   `sublist_of` map_keys (node_pass rows).2).
  { rewrite warnings_build. apply warning_ids_sublist, index_entries. }
  rewrite employeeMap_build. split; [|split; [done|]].
  - intros mid k. split.
    + intros Hw. apply BuildSpec.warning_inv in Hw as (l & e0 & Hg & Hl & Hm & Hn).
      destruct (index_node _ _ _ Hg) as (r & e & _ & He & Hl' & _ & Hme & _).
      exists e. split; [apply node_at_Some; by exists l|].
      split; [|done]. rewrite Hme. rewrite Hl in Hl'. by injection Hl' as <-.
    + intros (e & He & Hm & Hn). apply node_at_Some in He as (l & Hg & He).
      destruct (store_object _ _ _ He) as (e0 & Hl & Hid & Hm0 & _).
      destruct (index_node _ _ _ Hg) as (r & e' & _ & He' & _ & Hid' & _).
      assert (e' = e) as -> by congruence.
      rewrite <- Hid', Hid.
      apply (BuildSpec.warning_elem rows k l e0 mid Hg Hl); [congruence|done].
  - apply (NoDup_fmap_1 warned_id). eapply sublist_NoDup; [apply keys_NoDup|exact Hsub].
Qed.

(** *** Root candidates and children *)

Lemma is_child_inv rows l :
  is_child (buildEmployeeMap rows) l →
  ∃ k e mid lm, map_get k (node_pass rows).2 = Some l ∧
                (node_pass rows).1 !! l = Some e ∧ managerId e = Some mid ∧
                map_get mid (node_pass rows).2 = Some lm.
Proof.
  intros (l' & e' & He' & Hin).
  destruct (store_object _ _ _ He') as (_ & _ & _ & _ & _ & Hc & _).
  rewrite Hc in Hin. apply linked_elem in Hin as (k & e & mid & ? & ? & ? & ?).
  by exists k, e, mid, l'.
Qed.

Lemma is_child_intro rows k l e mid lm :
  map_get k (node_pass rows).2 = Some l →
  (node_pass rows).1 !! l = Some e → managerId e = Some mid →
  map_get mid (node_pass rows).2 = Some lm →
  is_child (buildEmployeeMap rows) l.
Proof.
  intros Hk Hl Hm Hmid.
  destruct (index_node _ _ _ Hmid) as (rm & em & _ & Hem & _ & _ & _ & _ & Hc).
  exists lm, em. split; [done|]. rewrite Hc. apply linked_elem. by exists k, e, mid.
Qed.

(** X3: a node of the index passes the root-candidate test of the upload
    handler exactly when it is in no [children] array: every node is
    either a root candidate or somebody's child, never both. *)
Theorem root_candidates_are_the_unlinked_nodes
    (rows : list RawCsvRow) (k : string) (l : loc) (e : Employee) :
  map_get k (employeeMap (buildEmployeeMap rows)) = Some l →
  store (buildEmployeeMap rows) !! l = Some e →
  (App.is_root_candidate (employeeMap (buildEmployeeMap rows)) e = true ↔
   ¬ is_child (buildEmployeeMap rows) l).
Proof.
  rewrite employeeMap_build. intros Hk He.
  destruct (store_object _ _ _ He) as (e0 & Hl & _ & Hm & _ & _ & Hne).
  unfold App.is_root_candidate, map_has. split.
  - intros Hc Hch. apply is_child_inv in Hch as (k2 & e2 & mid & lm & _ & Hl2 & Hm2 & Hg).
    rewrite Hl in Hl2. injection Hl2 as <-. rewrite Hm, Hm2, Hg in Hc.
    rewrite (proj2 (truthy_Some mid)) in Hc; [done|].
    intros ->. by rewrite Hm, Hm2 in Hne.
  - intros Hch. destruct (managerId e) as [mid|] eqn:Hme; [|done].
    destruct (map_get mid (node_pass rows).2) as [lm|] eqn:Hg; [|apply orb_true_r].
    destruct Hch. apply (is_child_intro rows k l e0 mid lm); congruence.
Qed.

Lemma root_candidates_are_the_unlinked_nodes_witness :
  map_get "3" (employeeMap (buildEmployeeMap sample_rows)) = Some 2 ∧
  store (buildEmployeeMap sample_rows) !! 2
    = Some orphan_node ∧
  (App.is_root_candidate (employeeMap (buildEmployeeMap sample_rows))
     orphan_node = true ↔
   ¬ is_child (buildEmployeeMap sample_rows) 2).
Proof.
  assert (H1 : map_get "3" (employeeMap (buildEmployeeMap sample_rows)) = Some 2)
    by (vm_compute; reflexivity).
  assert (H2 : store (buildEmployeeMap sample_rows) !! 2
    = Some orphan_node)
    by (vm_compute; reflexivity).
  split; [exact H1|]. split; [exact H2|].
  exact (root_candidates_are_the_unlinked_nodes sample_rows "3" 2 _ H1 H2).
Defined.

(** X4: an object that a later record with the same id has replaced is out of
    reach: it has no children and is in no [children] array. *)
Theorem replaced_objects_are_unreachable
    (rows : list RawCsvRow) (l : loc) (e : Employee) :
  store (buildEmployeeMap rows) !! l = Some e →
  l ∉ map_values (employeeMap (buildEmployeeMap rows)) →
  children e = [] ∧ ¬ is_child (buildEmployeeMap rows) l.
Proof.
  rewrite employeeMap_build. intros He Hnot.
  assert (Hval : ∀ k, map_get k (node_pass rows).2 = Some l → False).
  { intros k Hk. apply Hnot. unfold map_values. apply list_elem_of_fmap.
    exists (k, l). split; [done|by apply map_get_Some_elem]. }
  split.
  - destruct (store_object _ _ _ He) as (_ & _ & _ & _ & _ & Hc & _).
    rewrite Hc. destruct (linked _ _ _ l) as [|c cs] eqn:E; [done|].
    assert (Hin : c ∈ linked (node_pass rows).1 (node_pass rows).2 (node_pass rows).2 l)
      by (rewrite E; left).
    apply linked_elem in Hin as (k & e2 & mid & _ & _ & _ & Hg). by destruct (Hval mid).
  - intros Hch. apply is_child_inv in Hch as (k & _ & _ & _ & Hk & _). by destruct (Hval k).
Qed.

Lemma replaced_objects_are_unreachable_witness :
  store (buildEmployeeMap duplicate_rows) !! 1
    = Some first_a_node ∧
  (1 ∉ map_values (employeeMap (buildEmployeeMap duplicate_rows))) ∧
  children first_a_node = [] ∧
  ¬ is_child (buildEmployeeMap duplicate_rows) 1.
Proof.
  assert (H1 : store (buildEmployeeMap duplicate_rows) !! 1
    = Some first_a_node)
    by (vm_compute; reflexivity).
  assert (H2 : 1 ∉ map_values (employeeMap (buildEmployeeMap duplicate_rows))).
  { intros H. vm_compute in H. repeat (apply elem_of_cons in H as [H|H]; [discriminate H|]).
    by apply elem_of_nil in H. }
  split; [exact H1|]. split; [exact H2|].
  exact (replaced_objects_are_unreachable duplicate_rows 1 _ H1 H2).
Defined.

End BuildMore.

(** * Further properties of the search *)

Module SearchMore.
Import Js JsFacts MapFacts DataProcessing Notions Notions2 NodePass LinkPass BuildFacts.
Import Examples Examples2.

(** *** Trimming *)

Lemma trimStart_suffix s : ∃ pre, s = pre +:+ trimStart s.
Proof.
  induction s as [|c s [pre IH]]; simpl; [by exists ""|].
  destruct (is_space c); [|by exists ""].
  exists (String c pre). unfold_append. by rewrite <- IH.
Qed.

Lemma trimEnd_prefix s : ∃ post, s = trimEnd s +:+ post.
Proof.
  induction s as [|c s [post IH]]; simpl; [by exists ""|].
  destruct (trimEnd s) as [|d t] eqn:E.
  - destruct (is_space c).
    + by exists (String c s).
    + exists s. by unfold_append.
  - exists post. unfold_append. by rewrite <- IH.
Qed.

Lemma trim_substring s : ∃ pre post, s = pre +:+ trim s +:+ post.
Proof.
  destruct (trimStart_suffix s) as [pre Hpre].
  destruct (trimEnd_prefix (trimStart s)) as [post Hpost].
  exists pre, post. unfold trim. by rewrite <- Hpost.
Qed.

Lemma trimEnd_idemp s : trimEnd (trimEnd s) = trimEnd s.
Proof.
  induction s as [|c s IH]; simpl; [done|].
  destruct (trimEnd s) as [|d t] eqn:E.
  - destruct (is_space c) eqn:Ec; simpl; [done|]. by rewrite Ec.
  - simpl in *. by rewrite IH.
Qed.

Lemma trimStart_no_leading_space s : no_leading_space (trimStart s).
Proof.
  induction s as [|c s IH]; simpl; [done|]. by destruct (is_space c) eqn:E.
Qed.

Lemma trimEnd_no_leading_space s : no_leading_space s → no_leading_space (trimEnd s).
Proof.
  destruct s as [|c s]; simpl; [done|]. intros Hc.
  destruct (trimEnd s); [by rewrite Hc|done].
Qed.

Lemma trimStart_id s : no_leading_space s → trimStart s = s.
Proof. destruct s as [|c s]; simpl; [done|]. by intros ->. Qed.

Lemma trim_idemp s : trim (trim s) = trim s.
Proof.
  unfold trim.
  rewrite (trimStart_id (trimEnd (trimStart s))).
  - apply trimEnd_idemp.
  - apply trimEnd_no_leading_space, trimStart_no_leading_space.
Qed.

Lemma whitespace_only_trim s : whitespace_only (trim s) = whitespace_only s.
Proof.
  destruct (whitespace_only s) eqn:E.
  - apply trim_empty in E. by rewrite E.
  - destruct (whitespace_only (trim s)) eqn:E'; [|done].
    apply trim_empty in E'. rewrite trim_idemp in E'. apply trim_empty in E'. congruence.
Qed.

(** *** Results *)

Lemma search_eq h m query field :
  searchEmployees h m query field =
  if whitespace_only query then []
  else filter (λ l, hit h (trim (toLowerCase query)) field l = true) (map_values m).
Proof.
  unfold searchEmployees. rewrite SearchSpec.blank_query.
  destruct (whitespace_only query); cbn [negb]; [done|].
  by rewrite SearchSpec.search_fold.
Qed.

Lemma search_parts h m query field :
  (whitespace_only query = true → searchEmployees h m query field = []) ∧
  (whitespace_only query = false →
     searchEmployees h m query field =
     filter (λ l, hit h (trim (toLowerCase query)) field l = true) (map_values m)) ∧
  (∀ l, hit h (trim (toLowerCase query)) field l = true ↔ matches h field (trim query) l).
Proof.
  rewrite search_eq. split; [by intros ->|]. split; [by intros ->|].
  intros l. rewrite trim_toLowerCase. apply SearchSpec.hit_spec.
Qed.

(** X5: the result of a search is a part of the values of the index, in their
    order: nothing outside the index is returned, every result is a live
    object, and no node is returned twice when the index holds none twice,
    as is the case for a built index. *)
Theorem search_returns_part_of_the_index
    (h : Heap) (m : Map loc) (query : string) (field : SearchField) :
  searchEmployees h m query field `sublist_of` map_values m ∧
  (∀ l, l ∈ searchEmployees h m query field → is_Some (h !! l)) ∧
  (NoDup (map_values m) → NoDup (searchEmployees h m query field)) ∧
  (∀ rows, NoDup (map_values (employeeMap (buildEmployeeMap rows)))).
Proof.
  assert (Hsub : searchEmployees h m query field `sublist_of` map_values m).
  { rewrite search_eq. destruct (whitespace_only query);
      [apply sublist_nil_l|apply sublist_filter]. }
  split; [done|]. split; [|split].
  - intros l. rewrite search_eq. destruct (whitespace_only query).
    + intros Hl. by apply elem_of_nil in Hl.
    + intros Hl. apply list_elem_of_filter in Hl as [Hhit _]. unfold hit in Hhit.
      by destruct (h !! l).
  - intros Hnd. by eapply sublist_NoDup.
  - intros rows. rewrite employeeMap_build. apply (ni_vals _ _ _ (node_pass_inv rows)).
Qed.

Lemma own_value_matches h field l e v :
  h !! l = Some e → field_value field e = Some v → matches h field (trim v) l.
Proof.
  intros He Hv. exists e, v. split; [done|]. split; [done|].
  destruct (trim_substring v) as (pre & post & Hs).
  by exists pre, (trim v), post.
Qed.

(** X6: searching for the whole value of a node's field finds that node, as
    long as the value is not white space only. *)
Theorem search_finds_the_owner_of_a_value
    (h : Heap) (m : Map loc) (field : SearchField) (l : loc) (e : Employee) (v : string) :
  l ∈ map_values m → h !! l = Some e →
  field_value field e = Some v → whitespace_only v = false →
  l ∈ searchEmployees h m v field.
Proof.
  intros Hin He Hv Hw.
  destruct (search_parts h m v field) as (_ & Hfilter & Hhit).
  rewrite (Hfilter Hw). apply list_elem_of_filter. split; [|done].
  apply Hhit. by apply (own_value_matches h field l e v).
Qed.

Lemma search_finds_the_owner_of_a_value_witness :
  1 ∈ map_values (employeeMap (buildEmployeeMap sample_rows)) ∧
  store (buildEmployeeMap sample_rows) !! 1 = Some child_node ∧
  field_value FieldName child_node = Some "Child" ∧
  whitespace_only "Child" = false ∧
  1 ∈ searchEmployees (store (buildEmployeeMap sample_rows))
        (employeeMap (buildEmployeeMap sample_rows)) "Child" FieldName.
Proof.
  assert (H1 : 1 ∈ map_values (employeeMap (buildEmployeeMap sample_rows))).
  { vm_compute. right. left. }
  assert (H2 : store (buildEmployeeMap sample_rows) !! 1 = Some child_node)
    by (vm_compute; reflexivity).
  assert (H3 : field_value FieldName child_node = Some "Child") by reflexivity.
  assert (H4 : whitespace_only "Child" = false) by (vm_compute; reflexivity).
  split; [exact H1|]. split; [exact H2|]. split; [exact H3|]. split; [exact H4|].
  exact (search_finds_the_owner_of_a_value _ _ FieldName 1 child_node "Child" H1 H2 H3 H4).
Defined.

(** X7: the letter case of the query and the white space around it do not
    matter: the lower-cased query and the trimmed query give the results
    of the query itself. *)
Theorem search_ignores_case_and_padding
    (h : Heap) (m : Map loc) (query : string) (field : SearchField) :
  searchEmployees h m (toLowerCase query) field = searchEmployees h m query field ∧
  searchEmployees h m (trim query) field = searchEmployees h m query field.
Proof.
  rewrite !search_eq. split.
  - by rewrite whitespace_only_toLowerCase, toLowerCase_idemp.
  - by rewrite whitespace_only_trim, !trim_toLowerCase, trim_idemp.
Qed.

(** X8: the direct reports of a node are all found by searching the
    [managerId] field for the node's id. *)
Theorem reports_are_found_by_manager_search
    (rows : list RawCsvRow) (km : string) (em : Employee) (c : loc) :
  node_at (buildEmployeeMap rows) km = Some em →
  c ∈ children em →
  whitespace_only km = false →
  c ∈ searchEmployees (store (buildEmployeeMap rows))
        (employeeMap (buildEmployeeMap rows)) km FieldManagerId.
Proof.
  intros Hem Hc Hw. apply BuildMore.node_at_Some in Hem as (lm & Hlm & Hem).
  destruct (store_object _ _ _ Hem) as (_ & _ & _ & _ & _ & Hch & _).
  rewrite Hch in Hc. apply linked_elem in Hc as (k & e0 & mid & Hk & Hl & Hm & Hg).
  assert (mid = km) as -> by (by apply (index_loc_inj rows mid km lm)).
  destruct (index_node _ _ _ Hk) as (r & ec & _ & Hec & Hl' & _ & Hmc & _).
  rewrite Hl in Hl'. injection Hl' as ->. rewrite Hm in Hmc.
  destruct (search_parts (store (buildEmployeeMap rows))
              (employeeMap (buildEmployeeMap rows)) km FieldManagerId)
    as (_ & Hfilter & Hhit).
  rewrite (Hfilter Hw). apply list_elem_of_filter. split.
  - apply Hhit, (own_value_matches _ FieldManagerId c ec km); [done|].
    simpl. rewrite Hmc. unfold absent_if_empty.
    destruct (truthy (Some km)) eqn:E; [done|].
    apply truthy_false in E as [[=]|[= ->]]. discriminate Hw.
  - rewrite employeeMap_build. unfold map_values. apply list_elem_of_fmap.
    exists (k, c). split; [done|by apply map_get_Some_elem].
Qed.

Lemma reports_are_found_by_manager_search_witness :
  node_at (buildEmployeeMap sample_rows) "1" = Some root_node ∧
  1 ∈ children root_node ∧
  whitespace_only "1" = false ∧
  1 ∈ searchEmployees (store (buildEmployeeMap sample_rows))
        (employeeMap (buildEmployeeMap sample_rows)) "1" FieldManagerId.
Proof.
  assert (H1 : node_at (buildEmployeeMap sample_rows) "1" = Some root_node)
    by (vm_compute; reflexivity).
  assert (H2 : 1 ∈ children root_node) by (vm_compute; left).
  assert (H3 : whitespace_only "1" = false) by (vm_compute; reflexivity).
  split; [exact H1|]. split; [exact H2|]. split; [exact H3|].
  exact (reports_are_found_by_manager_search sample_rows "1" root_node 1 H1 H2 H3).
Defined.

End SearchMore.

(** * Further properties of the upload handler and of navigation *)

Module AppMore.
Import Js JsFacts MapFacts DataProcessing Notions Notions2 NodePass LinkPass BuildFacts.
Import Examples Examples2 Examples3.
Import App.

(** *** The default root *)

Lemma first_root_candidate_Some h m vs l :
  first_root_candidate h m vs = Some l →
  ∃ pre post e,
    vs = pre ++ l :: post ∧ h !! l = Some e ∧ is_root_candidate m e = true ∧
    Forall (λ l', ∀ e', h !! l' = Some e' → is_root_candidate m e' = false) pre.
Proof.
  induction vs as [|v vs IH]; simpl; [done|].
  destruct (h !! v) as [e|] eqn:Ev.
  - destruct (is_root_candidate m e) eqn:Ec.
    + intros [= <-]. by exists [], vs, e.
    + intros H. destruct (IH H) as (pre & post & e' & -> & ? & ? & ?).
      exists (v :: pre), post, e'. repeat split; try done.
      constructor; [|done]. intros e2 He2. congruence.
  - intros H. destruct (IH H) as (pre & post & e' & -> & ? & ? & ?).
    exists (v :: pre), post, e'. repeat split; try done.
    constructor; [|done]. intros e2 He2. congruence.
Qed.

Lemma first_root_candidate_None h m vs :
  first_root_candidate h m vs = None →
  Forall (λ l', ∀ e', h !! l' = Some e' → is_root_candidate m e' = false) vs.
Proof.
  induction vs as [|v vs IH]; simpl; [done|].
  destruct (h !! v) as [e|] eqn:Ev.
  - destruct (is_root_candidate m e) eqn:Ec; [done|].
    intros H. constructor; [|by apply IH]. intros e2 He2. congruence.
  - intros H. constructor; [|by apply IH]. intros e2 He2. congruence.
Qed.

Lemma not_candidate_at b l :
  (∀ e', store b !! l = Some e' →
         is_root_candidate (DataProcessing.employeeMap b) e' = false) →
  ¬ candidate_at b l.
Proof. intros H (e & He & Hc). rewrite (H _ He) in Hc. done. Qed.

Lemma Forall_not_candidate b vs :
  Forall (λ l', ∀ e', store b !! l' = Some e' →
                      is_root_candidate (DataProcessing.employeeMap b) e' = false) vs →
  Forall (λ l', ¬ candidate_at b l') vs.
Proof. intros H. eapply Forall_impl; [exact H|]. intros l. apply not_candidate_at. Qed.

Lemma goUp_offered_candidate st root e m :
  viewRoot st = Some root → heap st !! root = Some e → employeeMap st = Some m →
  is_root_candidate m e = true → AppUi.goUp_offered st = false.
Proof.
  intros Hr He Hm Hc. unfold AppUi.goUp_offered. rewrite Hr, Hm, He.
  unfold is_root_candidate in Hc.
  destruct (truthy (managerId e)); [|done]. simpl in *.
  destruct (managerId e) as [mid|]; [|done]. by destruct (map_has mid m).
Qed.

(** X9: when some record yields an identifier, the upload selects a root: the
    first node, in the iteration order of the index, that passes the
    root-candidate test, and the very first node when none passes it.  If
    any node passes the test, the "Go Up" button is not offered on the view
    the upload opens. *)
Theorem upload_selects_first_root_candidate (st : State) (rows : list RawCsvRow) :
  input_ids rows ≠ [] →
  let b := buildEmployeeMap rows in
  ∃ l pre post,
    viewRoot (handleUpload st rows) = Some l ∧
    map_values (DataProcessing.employeeMap b) = pre ++ l :: post ∧
    Forall (λ l', ¬ candidate_at b l') pre ∧
    (candidate_at b l ∨ pre = [] ∧ Forall (λ l', ¬ candidate_at b l') post) ∧
    ((∃ l', l' ∈ map_values (DataProcessing.employeeMap b) ∧ candidate_at b l') →
     candidate_at b l ∧ AppUi.goUp_offered (handleUpload st rows) = false).
Proof.
  intros Hids b.
  assert (Hne : rows ≠ []) by (by intros ->).
  assert (Hup : handleUpload st rows =
            {| heap := store b; employeeMap := Some (DataProcessing.employeeMap b);
               viewRoot := defaultRoot b; isLoading := false; uploadError := None |}).
  { unfold handleUpload. destruct rows; [done|]. done. }
  rewrite Hup. cbn [viewRoot]. unfold defaultRoot.
  destruct (first_root_candidate _ _ _) as [l|] eqn:E.
  - apply first_root_candidate_Some in E as (pre & post & e & Hv & He & Hc & Hpre).
    assert (Hl : candidate_at b l) by (by exists e).
    exists l, pre, post. split; [done|]. split; [done|].
    split; [by apply Forall_not_candidate|]. split; [by left|].
    intros _. split; [done|].
    by apply (goUp_offered_candidate _ l e (DataProcessing.employeeMap b)).
  - apply first_root_candidate_None, Forall_not_candidate in E.
    destruct (map_values (DataProcessing.employeeMap b)) as [|l vs] eqn:Ev.
    { apply fmap_nil_inv in Ev. apply AppSpec.empty_index_iff in Ev. done. }
    exists l, [], vs. split; [done|]. split; [done|]. split; [done|].
    apply Forall_cons in E as [El Evs]. split; [by right|].
    intros (l' & Hin & Hc). exfalso. apply elem_of_cons in Hin as [->|Hin]; [done|].
    by apply (proj1 (Forall_forall _ _) Evs l').
Qed.

Lemma upload_selects_first_root_candidate_witness :
  input_ids sample_rows ≠ [] ∧
  let b := buildEmployeeMap sample_rows in
  ∃ l pre post,
    viewRoot (handleUpload initial sample_rows) = Some l ∧
    map_values (DataProcessing.employeeMap b) = pre ++ l :: post ∧
    Forall (λ l', ¬ candidate_at b l') pre ∧
    (candidate_at b l ∨ pre = [] ∧ Forall (λ l', ¬ candidate_at b l') post) ∧
    ((∃ l', l' ∈ map_values (DataProcessing.employeeMap b) ∧ candidate_at b l') →
     candidate_at b l ∧ AppUi.goUp_offered (handleUpload initial sample_rows) = false).
Proof.
  assert (H : input_ids sample_rows ≠ []) by (vm_compute; discriminate).
  split; [exact H|].
  exact (upload_selects_first_root_candidate initial sample_rows H).
Defined.

(** *** The button and the handler *)

(** X10: the "Go Up" button is offered exactly when [goUp] acts: where it is
    not offered [goUp] leaves the state alone, and where it is offered
    [goUp] makes the manager of the root the new root. *)
Theorem button_offered_iff_goUp_acts (st : State) :
  (AppUi.goUp_offered st = false → goUp st = st) ∧
  (AppUi.goUp_offered st = true →
   ∃ root employee mid m manager,
     viewRoot st = Some root ∧ heap st !! root = Some employee ∧
     managerId employee = Some mid ∧ employeeMap st = Some m ∧
     map_get mid m = Some manager ∧
     goUp st = setViewRoot (Some manager) st).
Proof.
  unfold AppUi.goUp_offered, goUp, map_has.
  destruct (viewRoot st) as [root|] eqn:Hr; [|by split].
  destruct (employeeMap st) as [m|] eqn:Hm; [|by split].
  destruct (heap st !! root) as [e|] eqn:He; [|by split].
  destruct (truthy (managerId e)); [|by split]. simpl.
  destruct (managerId e) as [mid|] eqn:Hmid; [|by split].
  destruct (map_get mid m) as [manager|] eqn:Hg; [|by split].
  split; [done|]. intros _. by exists root, e, mid, m, manager.
Qed.

(** *** Reachable states *)

Lemma goUp_cases st :
  goUp st = st ∨
  ∃ mid m manager,
    employeeMap st = Some m ∧ map_get mid m = Some manager ∧
    goUp st = setViewRoot (Some manager) st.
Proof.
  unfold goUp.
  destruct (viewRoot st) as [root|]; [|by left].
  destruct (employeeMap st) as [m|] eqn:Hm; [|by left].
  destruct (heap st !! root) as [e|]; [|by left].
  destruct (truthy (managerId e)); [|by left].
  destruct (managerId e) as [mid|]; [|by left].
  destruct (map_get mid m) as [manager|] eqn:Hg; [|by left].
  right. by exists mid, m, manager.
Qed.

Lemma built_entry rows k l :
  map_get k (DataProcessing.employeeMap (buildEmployeeMap rows)) = Some l →
  ∃ e, store (buildEmployeeMap rows) !! l = Some e ∧ id e = k.
Proof.
  rewrite employeeMap_build. intros Hk.
  destruct (index_node _ _ _ Hk) as (r & e & _ & He & _ & Hid & _). by exists e.
Qed.

Lemma value_has_key {V} (m : Map V) (v : V) :
  v ∈ map_values m → ∃ k, (k, v) ∈ m.
Proof.
  unfold map_values. intros ([k v'] & -> & Hin)%list_elem_of_fmap. by exists k.
Qed.

Lemma defaultRoot_in_index rows l :
  defaultRoot (buildEmployeeMap rows) = Some l →
  ∃ k, map_get k (DataProcessing.employeeMap (buildEmployeeMap rows)) = Some l.
Proof.
  intros Hd.
  assert (Hin : l ∈ map_values (DataProcessing.employeeMap (buildEmployeeMap rows))).
  { unfold defaultRoot in Hd. destruct (first_root_candidate _ _ _) as [l'|] eqn:E.
    - injection Hd as ->.
      apply first_root_candidate_Some in E as (pre & post & _ & -> & _).
      apply elem_of_app. right. left.
    - by apply head_Some_elem_of. }
  apply value_has_key in Hin as [k Hin]. exists k.
  apply elem_map_get; [|done]. rewrite employeeMap_build. apply keys_NoDup.
Qed.

Lemma defaultRoot_None rows :
  defaultRoot (buildEmployeeMap rows) = None ↔
  DataProcessing.employeeMap (buildEmployeeMap rows) = [].
Proof.
  unfold defaultRoot. split.
  - destruct (first_root_candidate _ _ _); [done|].
    destruct (DataProcessing.employeeMap (buildEmployeeMap rows)); [done|discriminate].
  - by intros ->.
Qed.

Lemma reachable_from_build (st : State) : reachable st → from_build st.
Proof.
  induction 1 as [|st rawData _ IH|st k emp m _ IH _ _|st _ IH|st _ IH].
  - by intros m [=].
  - unfold handleUpload. destruct (length rawData =? 0)%nat; [exact IH|].
    intros m [= <-]. by exists rawData.
  - exact IH.
  - destruct (goUp_cases st) as [->|(mid & m & manager & _ & _ & ->)]; exact IH.
  - by intros m [=].
Qed.

(** X11: in every state the component can reach, the index and its objects come
    from one build; the root, when there is one, is a node of the index,
    stored under its own id; and with an index loaded there is no root
    exactly when the index is empty. *)
Theorem reachable_root_is_a_node_of_the_index (st : State) :
  reachable st →
  from_build st ∧
  (∀ r, viewRoot st = Some r →
        ∃ m k e, employeeMap st = Some m ∧ map_get k m = Some r ∧
                 heap st !! r = Some e ∧ id e = k) ∧
  (∀ m, employeeMap st = Some m → (viewRoot st = None ↔ m = [])).
Proof.
  induction 1 as [|st rawData _ IH|st k emp m _ IH Hm Hk|st _ IH|st _ IH].
  - split; [by intros m [=]|]. split; [by intros r [=]|by intros m [=]].
  - unfold handleUpload. destruct (length rawData =? 0)%nat; [exact IH|].
    split; [|split].
    + intros m [= <-]. by exists rawData.
    + cbn [viewRoot employeeMap heap]. intros r Hr.
      destruct (defaultRoot_in_index _ _ Hr) as [k' Hk'].
      destruct (built_entry _ _ _ Hk') as (e & He & Hid).
      by exists (DataProcessing.employeeMap (buildEmployeeMap rawData)), k', e.
    + cbn [viewRoot employeeMap]. intros m [= <-]. apply defaultRoot_None.
  - destruct IH as (Hb & _ & _). split; [exact Hb|]. split.
    + cbn. intros r [= <-]. destruct (Hb _ Hm) as (rows & Hh & ->).
      rewrite Hh. destruct (built_entry _ _ _ Hk) as (e & He & Hid).
      by exists (DataProcessing.employeeMap (buildEmployeeMap rows)), k, e.
    + cbn. intros m' Hm'. split; [done|]. intros ->.
      assert (m = []) as -> by congruence. done.
  - destruct (goUp_cases st) as [->|(mid & m & manager & Hm & Hg & ->)]; [exact IH|].
    destruct IH as (Hb & _ & _). split; [exact Hb|]. split.
    + cbn. intros r [= <-]. destruct (Hb _ Hm) as (rows & Hh & ->).
      rewrite Hh. destruct (built_entry _ _ _ Hg) as (e & He & Hid).
      by exists (DataProcessing.employeeMap (buildEmployeeMap rows)), mid, e.
    + cbn. intros m' Hm'. split; [done|]. intros ->.
      assert (m = []) as -> by congruence. done.
  - split; [by intros m [=]|]. split; [by intros r [=]|by intros m [=]].
Qed.

Lemma reachable_root_is_a_node_of_the_index_witness :
  reachable child_selected ∧
  from_build child_selected ∧
  (∀ r, viewRoot child_selected = Some r →
        ∃ m k e, employeeMap child_selected = Some m ∧ map_get k m = Some r ∧
                 heap child_selected !! r = Some e ∧ id e = k) ∧
  (∀ m, employeeMap child_selected = Some m → (viewRoot child_selected = None ↔ m = [])).
Proof.
  assert (H : reachable child_selected).
  { apply (reach_select _ "2" 1 [("1", 0); ("2", 1); ("3", 2)]).
    - apply reach_upload, reach_initial.
    - vm_compute. reflexivity.
    - vm_compute. reflexivity. }
  split; [exact H|].
  exact (reachable_root_is_a_node_of_the_index child_selected H).
Defined.

(** X12: selecting a child of a node of the index and going up leads to that
    node. *)
Theorem goUp_from_a_child_leads_to_its_parent
    (st : State) (m : Map loc) (k : string) (p c : loc) (e : Employee) :
  reachable st →
  employeeMap st = Some m → map_get k m = Some p →
  heap st !! p = Some e → c ∈ children e →
  viewRoot (goUp (selectEmployee st c)) = Some p.
Proof.
  intros Hreach Hm Hk He Hc.
  pose proof (reachable_from_build st Hreach) as Hb.
  destruct (Hb _ Hm) as (rows & Hh & ->).
  rewrite Hh in He. rewrite employeeMap_build in Hk.
  destruct (store_object _ _ _ He) as (_ & _ & _ & _ & _ & Hch & _).
  rewrite Hch in Hc. apply linked_elem in Hc as (kc & ec0 & mid & Hkc & Hlc & Hmc & Hg).
  assert (mid = k) as -> by (by apply (index_loc_inj rows mid k p)).
  destruct (index_node _ _ _ Hkc) as (rc & ec & _ & Hec & Hlc' & _ & Hmec & _).
  rewrite Hlc in Hlc'. injection Hlc' as ->. rewrite Hmc in Hmec.
  destruct (store_object _ _ _ Hec) as (_ & _ & _ & _ & _ & _ & Hne).
  unfold goUp, selectEmployee. cbn. rewrite Hm, Hh, Hec, Hmec.
  rewrite employeeMap_build, Hg.
  rewrite (proj2 (truthy_Some k)); [done|]. intros ->. by rewrite Hmec in Hne.
Qed.

Lemma goUp_from_a_child_leads_to_its_parent_witness :
  reachable uploaded ∧
  employeeMap uploaded = Some [("1", 0); ("2", 1); ("3", 2)] ∧
  map_get "1" [("1", 0); ("2", 1); ("3", 2)] = Some 0 ∧
  heap uploaded !! 0 = Some root_node ∧ 1 ∈ children root_node ∧
  viewRoot (goUp (selectEmployee uploaded 1)) = Some 0.
Proof.
  assert (H1 : reachable uploaded) by apply reach_upload, reach_initial.
  assert (H2 : employeeMap uploaded = Some [("1", 0); ("2", 1); ("3", 2)])
    by (vm_compute; reflexivity).
  assert (H3 : map_get "1" [("1", 0); ("2", 1); ("3", 2)] = Some 0) by reflexivity.
  assert (H4 : heap uploaded !! 0 = Some root_node) by (vm_compute; reflexivity).
  assert (H5 : 1 ∈ children root_node) by (vm_compute; left).
  split; [exact H1|]. split; [exact H2|]. split; [exact H3|].
  split; [exact H4|]. split; [exact H5|].
  exact (goUp_from_a_child_leads_to_its_parent uploaded _ "1" 0 1 root_node H1 H2 H3 H4 H5).
Defined.

(** *** The search box *)

(** X13: submitting a search changes the root only when exactly one node of the
    index matches the trimmed query: that node becomes the root and the
    search box is emptied.  With no index or an empty query nothing
    happens; a query of white space only empties the result list. *)
Theorem search_changes_root_only_to_the_single_match (ui : AppUi.Ui) :
  (viewRoot (AppUi.app (AppUi.handleSearch ui)) ≠ viewRoot (AppUi.app ui) →
   ∃ m l,
     employeeMap (AppUi.app ui) = Some m ∧
     searchEmployees (heap (AppUi.app ui)) m (AppUi.searchQuery ui) (AppUi.searchType ui)
       = [l] ∧
     viewRoot (AppUi.app (AppUi.handleSearch ui)) = Some l ∧
     l ∈ map_values m ∧
     matches (heap (AppUi.app ui)) (AppUi.searchType ui) (trim (AppUi.searchQuery ui)) l ∧
     (∀ l', l' ∈ map_values m →
            matches (heap (AppUi.app ui)) (AppUi.searchType ui)
                    (trim (AppUi.searchQuery ui)) l' →
            l' = l) ∧
     AppUi.searchQuery (AppUi.handleSearch ui) = "" ∧
     AppUi.searchResults (AppUi.handleSearch ui) = []) ∧
  (employeeMap (AppUi.app ui) = None ∨ AppUi.searchQuery ui = "" →
   AppUi.handleSearch ui = ui) ∧
  (is_Some (employeeMap (AppUi.app ui)) → AppUi.searchQuery ui ≠ "" →
   whitespace_only (AppUi.searchQuery ui) = true →
   AppUi.handleSearch ui = AppUi.setSearchResults [] ui).
Proof.
  unfold AppUi.handleSearch. split; [|split].
  - destruct (employeeMap (AppUi.app ui)) as [m|] eqn:Hm; [|done].
    destruct (truthy (Some (AppUi.searchQuery ui))); [|done].
    destruct (searchEmployees _ _ _ _) as [|l [|l2 rest]] eqn:Hs; [done| |done].
    intros _. exists m, l. split; [done|]. split; [done|]. split; [done|].
    pose proof (SearchMore.search_parts
                  (heap (AppUi.app ui)) m (AppUi.searchQuery ui) (AppUi.searchType ui))
      as (Hblank & Hfilter & Hhit).
    destruct (whitespace_only (AppUi.searchQuery ui)) eqn:Hw.
    { rewrite (Hblank eq_refl) in Hs. discriminate Hs. }
    specialize (Hfilter eq_refl). rewrite Hs in Hfilter.
    assert (Hl : l ∈ [l]) by left. rewrite Hfilter in Hl.
    apply list_elem_of_filter in Hl as [Hl Hin].
    split; [done|]. split; [by apply Hhit|]. split; [|done].
    intros l' Hin' Hm'. apply Hhit in Hm'.
    assert (Hl' : l' ∈ [l]) by (rewrite Hfilter; by apply list_elem_of_filter).
    by apply list_elem_of_singleton in Hl'.
  - intros [Hm|Hq].
    + by rewrite Hm.
    + destruct (employeeMap (AppUi.app ui)); [|done]. by rewrite Hq.
  - intros [m Hm] Hq Hw. rewrite Hm.
    rewrite (proj2 (truthy_Some _) Hq).
    pose proof (SearchMore.search_parts
                  (heap (AppUi.app ui)) m (AppUi.searchQuery ui) (AppUi.searchType ui))
      as (Hblank & _ & _).
    by rewrite (Hblank Hw).
Qed.

End AppMore.

(** * Further properties of the fit-to-screen transform *)

Module ChartMore.
Import OrgChart Notions Notions2 Examples Examples4 ChartSpec.
Local Open Scope Q_scope.

(** *** The bounding box *)

Lemma lower_step v a :
  ∃ a', (if below v (Fin a) then Fin v else Fin a) = Fin a' ∧
        a' <= v ∧ a' <= a ∧ (a' = v ∨ a' = a).
Proof.
  destruct (below v (Fin a)) eqn:E.
  - apply below_Fin in E. exists v. repeat split; [lra|lra|by left].
  - exists a. repeat split; [|lra|by right].
    apply Qnot_lt_le. intros H. apply below_Fin in H. congruence.
Qed.

Lemma upper_step v b :
  ∃ b', (if above v (Fin b) then Fin v else Fin b) = Fin b' ∧
        v <= b' ∧ b <= b' ∧ (b' = v ∨ b' = b).
Proof.
  destruct (above v (Fin b)) eqn:E.
  - apply above_Fin in E. exists v. repeat split; [lra|lra|by left].
  - exists b. repeat split; [|lra|by right].
    apply Qnot_lt_le. intros H. apply above_Fin in H. congruence.
Qed.

Lemma attained_step {A} (f : A → Q) (seen : list A) (d : A) (old new : Q) :
  (∃ p, p ∈ seen ∧ f p = old) → new = f d ∨ new = old →
  ∃ p, p ∈ seen ++ [d] ∧ f p = new.
Proof.
  intros (p & Hp & Hf) [->| ->].
  - exists d. split; [|done]. apply elem_of_app. right. left.
  - exists p. split; [|done]. apply elem_of_app. by left.
Qed.

Lemma bounds_step_bounding seen acc d :
  bounding seen acc → bounding (seen ++ [d]) (bounds_step acc d).
Proof.
  intros (a & b & c & e & -> & Hall & Ha & Hb & Hc & He).
  unfold bounds_step. cbn [minX maxX minY maxY].
  destruct (lower_step (x d) a) as (a' & -> & ? & ? & Ha').
  destruct (upper_step (x d) b) as (b' & -> & ? & ? & Hb').
  destruct (lower_step (y d) c) as (c' & -> & ? & ? & Hc').
  destruct (upper_step (y d) e) as (e' & -> & ? & ? & He').
  exists a', b', c', e'. split; [done|]. split; [|repeat split].
  - intros p Hp. apply elem_of_app in Hp as [Hp|Hp].
    + destruct (Hall p Hp) as (? & ? & ? & ?). repeat split; lra.
    + apply list_elem_of_singleton in Hp as ->. repeat split; lra.
  - by apply (attained_step x seen d a a').
  - by apply (attained_step x seen d b b').
  - by apply (attained_step y seen d c c').
  - by apply (attained_step y seen d e e').
Qed.

Lemma fold_bounds_bounding rest seen acc :
  bounding seen acc → bounding (seen ++ rest) (fold_left bounds_step rest acc).
Proof.
  revert seen acc. induction rest as [|d rest IH]; intros seen acc H; simpl.
  - by rewrite app_nil_r.
  - rewrite (cons_middle d seen rest), app_assoc. by apply IH, bounds_step_bounding.
Qed.

Lemma bounds_bounding nodes : nodes ≠ [] → bounding nodes (bounds nodes).
Proof.
  destruct nodes as [|d nodes]; [done|]. intros _. unfold bounds. simpl.
  apply (fold_bounds_bounding nodes [d]).
  exists (x d), (x d), (y d), (y d). split; [done|]. split.
  - intros p Hp. apply list_elem_of_singleton in Hp as ->. repeat split; lra.
  - repeat split; exists d; (split; [left|done]).
Qed.

Lemma boundingBox_Some_nonempty nodes box : boundingBox nodes = Some box → nodes ≠ [].
Proof. intros H ->. discriminate H. Qed.

(** X14: the bounding box contains the card of every node of the chart, and
    each of its four edges is the edge of some node's card. *)
Theorem box_is_the_hull_of_the_cards (nodes : list Point) (box : Box) :
  boundingBox nodes = Some box →
  (∀ p, p ∈ nodes →
        left box <= x p - CARD_WIDTH / 2 ∧ x p + CARD_WIDTH / 2 <= right box ∧
        top box <= y p ∧ y p + CARD_HEIGHT <= bottom box) ∧
  (∃ p, p ∈ nodes ∧ left box = x p - CARD_WIDTH / 2) ∧
  (∃ p, p ∈ nodes ∧ right box = x p + CARD_WIDTH / 2) ∧
  (∃ p, p ∈ nodes ∧ top box = y p) ∧
  (∃ p, p ∈ nodes ∧ bottom box = y p + CARD_HEIGHT).
Proof.
  intros Hbox. pose proof (boundingBox_Some_nonempty _ _ Hbox) as Hne.
  destruct (bounds_bounding nodes Hne)
    as (a & b & c & e & Hb & Hall & (pa & ? & <-) & (pb & ? & <-) & (pc & ? & <-) & (pe & ? & <-)).
  unfold boundingBox in Hbox. rewrite Hb in Hbox. injection Hbox as <-.
  cbn [left right top bottom]. split; [|repeat split].
  - intros p Hp. destruct (Hall p Hp) as (? & ? & ? & ?).
    unfold CARD_WIDTH, CARD_HEIGHT. rewrite half_width. repeat split; lra.
  - by exists pa.
  - by exists pb.
  - by exists pc.
  - by exists pe.
Qed.

Lemma box_is_the_hull_of_the_cards_witness :
  boundingBox two_levels = Some two_levels_box ∧
  (∀ p, p ∈ two_levels →
        left two_levels_box <= x p - CARD_WIDTH / 2 ∧
        x p + CARD_WIDTH / 2 <= right two_levels_box ∧
        top two_levels_box <= y p ∧ y p + CARD_HEIGHT <= bottom two_levels_box) ∧
  (∃ p, p ∈ two_levels ∧ left two_levels_box = x p - CARD_WIDTH / 2) ∧
  (∃ p, p ∈ two_levels ∧ right two_levels_box = x p + CARD_WIDTH / 2) ∧
  (∃ p, p ∈ two_levels ∧ top two_levels_box = y p) ∧
  (∃ p, p ∈ two_levels ∧ bottom two_levels_box = y p + CARD_HEIGHT).
Proof.
  assert (H : boundingBox two_levels = Some two_levels_box) by reflexivity.
  split; [exact H|].
  exact (box_is_the_hull_of_the_cards two_levels two_levels_box H).
Defined.

(** *** The transform *)

Lemma fitToScreen_eq nodes svgWidth svgHeight box :
  boundingBox nodes = Some box →
  fitToScreen nodes svgWidth svgHeight =
  Some {| tx := svgWidth / 2 - centerX box *
                  Qmin (Qmax (Qmin ((svgWidth - padding) / width box)
                                   ((svgHeight - padding) / height box)) 0.2) 1;
          ty := svgHeight / 2 - centerY box *
                  Qmin (Qmax (Qmin ((svgWidth - padding) / width box)
                                   ((svgHeight - padding) / height box)) 0.2) 1
                - (height box *
                   Qmin (Qmax (Qmin ((svgWidth - padding) / width box)
                                    ((svgHeight - padding) / height box)) 0.2) 1 / 2)
                + 50;
          k := Qmin (Qmax (Qmin ((svgWidth - padding) / width box)
                                ((svgHeight - padding) / height box)) 0.2) 1 |}.
Proof.
  intros Hbox. pose proof (boundingBox_Some_nonempty _ _ Hbox) as Hne.
  destruct (boundingBox_nonempty nodes Hne) as (box' & Hbox' & Hw & Hh).
  assert (box' = box) as -> by congruence.
  unfold CARD_WIDTH in Hw. unfold CARD_HEIGHT in Hh.
  unfold fitToScreen. rewrite Hbox.
  by rewrite !div_defined by (intros H0; rewrite H0 in *; lra).
Qed.

(** X15: a transform is computed for every chart with at least one node and
    for no other; its scale lies between 0.2 and 1; and the box it is
    computed from is at least one card wide and one card high, so that no
    division by zero can occur. *)
Theorem fit_is_defined_for_every_chart (nodes : list Point) (svgWidth svgHeight : Q) :
  (is_Some (fitToScreen nodes svgWidth svgHeight) ↔ nodes ≠ []) ∧
  (∀ t, fitToScreen nodes svgWidth svgHeight = Some t → 0.2 <= k t ∧ k t <= 1) ∧
  (∀ box, boundingBox nodes = Some box →
          CARD_WIDTH <= width box ∧ CARD_HEIGHT <= height box).
Proof.
  split; [|split].
  - split.
    + intros [t Ht] ->. discriminate Ht.
    + intros Hne. destruct (boundingBox_nonempty nodes Hne) as (box & Hbox & _).
      rewrite (fitToScreen_eq _ _ _ _ Hbox). by eexists.
  - intros t Ht. destruct nodes as [|d nodes]; [discriminate Ht|].
    destruct (boundingBox_nonempty (d :: nodes)) as (box & Hbox & _); [done|].
    rewrite (fitToScreen_eq _ _ _ _ Hbox) in Ht. injection Ht as <-.
    cbn [k]. apply clamp_range.
  - intros box Hbox. pose proof (boundingBox_Some_nonempty _ _ Hbox) as Hne.
    destruct (boundingBox_nonempty nodes Hne) as (box' & Hbox' & Hw & Hh).
    assert (box' = box) as -> by congruence. done.
Qed.

Lemma le_div c a w : 0 < w → (c <= a / w ↔ c * w <= a).
Proof.
  intros Hw. split.
  - intros H. assert (E : a / w * w == a) by (field; lra).
    rewrite <- E. apply Qmult_le_compat_r; lra.
  - intros H. by apply Qle_shift_div_l.
Qed.

Lemma div_le c a w : 0 < w → (a / w <= c ↔ a <= c * w).
Proof.
  intros Hw. split.
  - intros H. assert (E : a / w * w == a) by (field; lra).
    rewrite <- E. apply Qmult_le_compat_r; lra.
  - intros H. by apply Qle_shift_div_r.
Qed.

Lemma clamp_one s : Qmin (Qmax s 0.2) 1 == 1 ↔ 1 <= s.
Proof.
  destruct (Q.max_spec s 0.2) as [[? E1]|[? E1]];
  destruct (Q.min_spec (Qmax s 0.2) 1) as [[? E2]|[? E2]];
  rewrite ?E2 in *; rewrite ?E1 in *; split; intros; lra.
Qed.

Lemma clamp_floor s : Qmin (Qmax s 0.2) 1 == 0.2 ↔ s <= 0.2.
Proof.
  destruct (Q.max_spec s 0.2) as [[? E1]|[? E1]];
  destruct (Q.min_spec (Qmax s 0.2) 1) as [[? E2]|[? E2]];
  rewrite ?E2 in *; rewrite ?E1 in *; split; intros; lra.
Qed.

(** X16: the scale is 1 exactly when the box fits into the viewport less the
    padding at its natural size, and it is 0.2 exactly when the box would
    need a scale of 0.2 or less in one direction. *)
Theorem scale_is_one_iff_the_box_fits (nodes : list Point) (svgWidth svgHeight : Q) :
  nodes ≠ [] →
  ∃ box t,
    boundingBox nodes = Some box ∧
    fitToScreen nodes svgWidth svgHeight = Some t ∧
    (k t == 1 ↔ width box <= svgWidth - padding ∧ height box <= svgHeight - padding) ∧
    (k t == 0.2 ↔ svgWidth - padding <= 0.2 * width box ∨
                  svgHeight - padding <= 0.2 * height box).
Proof.
  intros Hne. destruct (boundingBox_nonempty nodes Hne) as (box & Hbox & Hw & Hh).
  unfold CARD_WIDTH in Hw. unfold CARD_HEIGHT in Hh.
  eexists box, _. split; [done|]. split; [by apply fitToScreen_eq|]. cbn [k].
  rewrite clamp_one, clamp_floor.
  rewrite Q.min_glb_iff, Q.min_le_iff.
  rewrite !le_div, !div_le by lra. split; [|done].
  rewrite !Qmult_1_l. done.
Qed.

Lemma scale_is_one_iff_the_box_fits_witness :
  two_levels ≠ [] ∧
  ∃ box t,
    boundingBox two_levels = Some box ∧
    fitToScreen two_levels 1000 1000 = Some t ∧
    (k t == 1 ↔ width box <= 1000 - padding ∧ height box <= 1000 - padding) ∧
    (k t == 0.2 ↔ 1000 - padding <= 0.2 * width box ∨
                  1000 - padding <= 0.2 * height box).
Proof.
  assert (H : two_levels ≠ []) by discriminate.
  split; [exact H|].
  exact (scale_is_one_iff_the_box_fits two_levels 1000 1000 H).
Defined.

End ChartMore.
